(** * Feature extraction (src/feature_extraction.py)

    A shallow embedding of the feature-extraction pipeline: the community
    index ([create_subreddit_idx]), the per-author aggregation
    ([extract_subreddits], [extract_text]) and the alignment with the label
    table ([extract_features]).

    Modelling conventions.
    - A pandas DataFrame is the list of its rows, in row order.  The post
      table has the columns author, subreddit and body; the label table has
      the columns author and gender.
    - author and subreddit cells are strings.  A body cell is either a
      string or missing (NaN), written [None].
    - A pandas Series with an explicit index is the list of its
      (index label, value) pairs, in order.
    - A Python dict with string keys is a [gmap string _].
    - A scipy sparse array is represented by its dense contents, a list of
      rows; a stored 1.0 is the integer 1 and an absent entry is 0.
    - Python exceptions are values of [exn]; a computation that may raise
      returns a [result]. *)

From Stdlib Require Import String Ascii List ZArith Lia.
From stdpp Require Import base gmap sets list strings sorting.

Open Scope string_scope.
Open Scope list_scope.

(** ** Exceptions and the error monad *)

Inductive exn : Type :=
| KeyError (key : string)
| IndexError (idx : nat)
| ValueError (msg : string).

Inductive result (A : Type) : Type :=
| Ok (a : A)
| Raise (e : exn).

Arguments Ok {A} a.
Arguments Raise {A} e.

Global Instance result_bind : MBind result := λ A B k m,
  match m with
  | Ok a => k a
  | Raise e => Raise e
  end.

(** A list comprehension whose body may raise: elements are evaluated left
    to right and the first exception aborts the whole comprehension. *)
Fixpoint comprehension {A B : Type} (f : A → result B) (l : list A)
  : result (list B) :=
  match l with
  | [] => Ok []
  | x :: l' =>
      y ← f x;
      ys ← comprehension f l';
      Ok (y :: ys)
  end.

(** ** Tables *)

Record PostRecord : Type := mkPost {
  author : string;
  subreddit : string;
  body : option string
}.

Record LabelRecord : Type := mkLabel {
  label_author : string;
  gender : string
}.

(** [data["subreddit"]], [data["author"]], [data["body"]],
    [target["author"]], [target["gender"]]. *)
Definition col_subreddit (data : list PostRecord) : list string :=
  map subreddit data.
Definition col_author (data : list PostRecord) : list string :=
  map author data.
Definition col_body (data : list PostRecord) : list (option string) :=
  map body data.
Definition target_author (target : list LabelRecord) : list string :=
  map label_author target.
Definition target_gender (target : list LabelRecord) : list string :=
  map gender target.

(** ** pandas primitives *)

(** [Series.unique()]: the distinct values in order of first appearance.
    pandas scans the column once with a hash table of the values seen. *)
Fixpoint unique_from (seen : gset string) (l : list string) : list string :=
  match l with
  | [] => []
  | x :: l' =>
      if decide (x ∈ seen) then unique_from seen l'
      else x :: unique_from ({[x]} ∪ seen) l'
  end.

Definition unique (l : list string) : list string := unique_from ∅ l.

(** [np.arange(n)] *)
Definition arange (n : nat) : list nat := seq 0 n.

(** [pd.Series(index=idx, data=vals)] *)
Definition Series (index : list string) (data : list nat)
  : list (string * nat) :=
  zip index data.

(** [s.loc[labels].values] for a list of labels: for each requested label,
    in order, every entry of the series carrying that label; a label that
    is not in the index raises KeyError. *)
Definition loc_one (s : list (string * nat)) (lbl : string)
  : result (list nat) :=
  match filter (fun kv => String.eqb (fst kv) lbl) s with
  | [] => Raise (KeyError lbl)
  | hits => Ok (map snd hits)
  end.

Definition loc (s : list (string * nat)) (labels : list string)
  : result (list nat) :=
  chunks ← comprehension (loc_one s) labels;
  Ok (concat chunks).

(** [series.astype(str)] on one cell of an object column: a string is kept
    and a missing value (a float NaN) prints as nan. *)
Definition astype_str (cell : option string) : string :=
  match cell with
  | Some s => s
  | None => "nan"
  end.

(** [str.join] *)
Definition join (sep : string) (parts : list string) : string :=
  String.concat sep parts.

(** [DataFrame.groupby("author")]: one group per distinct author, groups in
    sorted key order ([String.le] compares strings character by character),
    the rows of a group in their original order. *)
Definition get_group (data : list PostRecord) (a : string)
  : list PostRecord :=
  filter (fun r => String.eqb (author r) a) data.

Definition groupby_author (data : list PostRecord)
  : list (string * list PostRecord) :=
  map (fun a => (a, get_group data a))
      (merge_sort String.le (unique (col_author data))).

(** ** scipy.sparse primitives *)

(** [sparse.dok_array((1, n))]: one row of n zeros. *)
Definition dok_array_1 (n : nat) : list (list Z) := [replicate n 0%Z].

(** [v[0, j] = 1]; a column outside the shape raises IndexError. *)
Definition setitem_0 (v : list (list Z)) (j : nat) : result (list (list Z)) :=
  match v with
  | row :: rest =>
      if decide (j < length row) then Ok (<[j := 1%Z]> row :: rest)
      else Raise (IndexError j)
  | [] => Raise (IndexError 0)
  end.

(** [sparse.vstack(blocks)]: the rows of the blocks, one block after the
    other.  An empty list of blocks is rejected, and so are blocks of
    different widths. *)
Definition ncols (m : list (list Z)) : nat :=
  match m with
  | [] => 0
  | row :: _ => length row
  end.

Definition vstack (blocks : list (list (list Z))) : result (list (list Z)) :=
  match blocks with
  | [] => Raise (ValueError "blocks must be 2-D")
  | b :: bs =>
      if forallb (fun b' => Nat.eqb (ncols b') (ncols b)) bs
      then Ok (concat blocks)
      else Raise (ValueError "incompatible dimensions")
  end.

(** ** The pipeline *)

Definition create_subreddit_idx (data : list PostRecord)
  : list (string * nat) :=
  let subreddits := unique (col_subreddit data) in
  Series subreddits (arange (length subreddits)).

(** The loop [for idx in idxs: v[0, idx] = 1]. *)
Fixpoint set_all (v : list (list Z)) (idxs : list nat)
  : result (list (list Z)) :=
  match idxs with
  | [] => Ok v
  | idx :: rest =>
      v' ← setitem_0 v idx;
      set_all v' rest
  end.

Definition extract_subreddits (author_data : list PostRecord)
  (subreddit_idx : list (string * nat)) : result (list (list Z)) :=
  let user_subreddits := col_subreddit author_data in
  idxs ← loc subreddit_idx user_subreddits;
  let v := dok_array_1 (length subreddit_idx) in
  set_all v idxs.

Definition extract_text (author_data : list PostRecord) : string :=
  let group_text := map astype_str (col_body author_data) in
  join " " group_text.

(** The two loops over [train_data.groupby("author")] that fill the
    dictionaries. *)
Fixpoint fill_subreddits_dict (groups : list (string * list PostRecord))
  (subreddit_idx : list (string * nat))
  (d : gmap string (list (list Z))) : result (gmap string (list (list Z))) :=
  match groups with
  | [] => Ok d
  | (a, group) :: rest =>
      v ← extract_subreddits group subreddit_idx;
      fill_subreddits_dict rest subreddit_idx (<[a := v]> d)
  end.

Fixpoint fill_text_dict (groups : list (string * list PostRecord))
  (d : gmap string string) : gmap string string :=
  match groups with
  | [] => d
  | (a, group) :: rest => fill_text_dict rest (<[a := extract_text group]> d)
  end.

(** [d[key]] on a dict. *)
Definition getitem {V : Type} (d : gmap string V) (key : string) : result V :=
  match d !! key with
  | Some v => Ok v
  | None => Raise (KeyError key)
  end.

Definition extract_features (train_data : list PostRecord)
  (target : list LabelRecord)
  : result (list (list Z) * list string * list string) :=
  let subreddit_idx := create_subreddit_idx train_data in
  subreddits_dict ←
    fill_subreddits_dict (groupby_author train_data) subreddit_idx ∅;
  let text_dict := fill_text_dict (groupby_author train_data) ∅ in
  blocks ← comprehension (getitem subreddits_dict) (target_author target);
  X ← vstack blocks;
  author_text ← comprehension (getitem text_dict) (target_author target);
  let y := target_gender target in
  Ok (X, author_text, y).

(** The end-to-end scenario of the specification. *)
Definition demo_posts : list PostRecord :=
  [ mkPost "a1" "sub1" (Some "hi");
    mkPost "a1" "sub2" (Some "there");
    mkPost "a2" "sub1" (Some "yo") ].

Definition demo_labels : list LabelRecord :=
  [ mkLabel "a1" "F"; mkLabel "a2" "M" ].

(** ** Vocabulary of the statements *)

(** Position of the first occurrence of [c] in a column. *)
Fixpoint first_pos (c : string) (l : list string) : option nat :=
  match l with
  | [] => None
  | x :: l' => if String.eqb x c then Some 0 else S <$> first_pos c l'
  end.

(** Number of distinct values of a column. *)
Definition distinct_count (l : list string) : nat :=
  size (list_to_set l : gset string).

(** A membership vector, in the words of the specification: as long as the
    index, with a 1 at position [CommunityIndex[c]] for every community [c]
    of the author and a 0 at every other position. *)
Definition is_membership_vector (idx : list (string * nat))
  (communities : list string) (v : list Z) : Prop :=
  length v = length idx
  ∧ ∀ j, j < length idx →
      ((∃ c, c ∈ communities ∧ (c, j) ∈ idx) → v !! j = Some 1%Z)
      ∧ (¬ (∃ c, c ∈ communities ∧ (c, j) ∈ idx) → v !! j = Some 0%Z).

(** The row obtained from [row] by the assignments [row[j] = 1], [j] in
    [js], all of them within the row. *)
Definition mark_all (row : list Z) (js : list nat) : list Z :=
  foldl (λ r j, <[j := 1%Z]> r) row js.

(** What the pipeline stores for an author: the 1 x N block returned by
    [extract_subreddits] on the author's group, and its only row. *)
Definition membership_block (data : list PostRecord) (a : string)
  : list (list Z) :=
  match extract_subreddits (get_group data a) (create_subreddit_idx data) with
  | Ok m => m
  | Raise _ => []
  end.

Definition membership_row (data : list PostRecord) (a : string) : list Z :=
  match membership_block data a with
  | v :: _ => v
  | [] => []
  end.

Definition text_of_author (data : list PostRecord) (a : string)
  : string :=
  extract_text (get_group data a).

(** The text of an author, in the words of the specification: the bodies of
    the author's posts, cast to text, in dataset order, with one space
    between consecutive entries.  An author without posts has no text. *)
Fixpoint text_spec (a : string) (data : list PostRecord) : option string :=
  match data with
  | [] => None
  | r :: rest =>
      if String.eqb (author r) a then
        Some (match text_spec a rest with
              | None => astype_str (body r)
              | Some t => astype_str (body r) +:+ " " +:+ t
              end)
      else text_spec a rest
  end.

(** The part of a text contributed by the posts before an entry (each
    followed by its separator) and by the posts after it (each preceded by
    its separator). *)
Definition entries_before (g : list PostRecord) : string :=
  foldr (λ r acc, astype_str (body r) +:+ " " +:+ acc) "" g.

Definition entries_after (g : list PostRecord) : string :=
  foldr (λ r acc, " " +:+ astype_str (body r) +:+ acc) "" g.

(** ** Loading *)

Definition DATA_DIR : string := "data".

(** [s.split(sep)] for a one-character separator: the pieces between the
    occurrences of the separator, empty pieces included. *)
Fixpoint str_split (sep : ascii) (s : string) : list string :=
  match s with
  | EmptyString => [""]
  | String ch s' =>
      if Ascii.eqb ch sep then "" :: str_split sep s'
      else match str_split sep s' with
           | piece :: pieces => String ch piece :: pieces
           | [] => [String ch ""]
           end
  end.

(** [pieces[-1]]; the pieces of a split are never empty. *)
Definition last_piece (pieces : list string) : string :=
  default "" (last pieces).

(** The outcome of a load: the table, the exception raised by the loader
    itself, or the exception raised inside [pd.read_csv]. *)
Inductive loaded (T E : Type) : Type :=
| Frame (df : T)
| Invalid (e : exn)
| ReadError (e : E).

Arguments Frame {T E} df.
Arguments Invalid {T E} e.
Arguments ReadError {T E} e.

(** [pd.read_csv] is the parameter [read_csv]: for a path it gives the
    table or the exception it raises. *)
Definition load_csv {T E : Type} (read_csv : string → T + E)
  (filename : string) : loaded T E :=
  let ext := last_piece (str_split "." filename) in
  if negb (String.eqb ext "csv") then
    Invalid (ValueError
               ("Invalid file extension: " +:+ ext +:+ ". Must be a CSV file."))
  else
    match read_csv (DATA_DIR +:+ "/" +:+ filename) with
    | inl df => Frame df
    | inr e => ReadError e
    end.

Definition load_data {T E : Type} (read_csv : string → T + E)
  (train_data train_target : string) : loaded (T * T) E :=
  match load_csv read_csv train_data with
  | Frame data =>
      match load_csv read_csv train_target with
      | Frame target => Frame (data, target)
      | Invalid e => Invalid e
      | ReadError e => ReadError e
      end
  | Invalid e => Invalid e
  | ReadError e => ReadError e
  end.


(** A name the loader accepts, as the check turns out: the bare name csv
    or any name ending in .csv. *)
Definition csv_name (filename : string) : Prop :=
  filename = "csv" ∨ ∃ stem, filename = stem +:+ ".csv".

(** ** More vocabulary *)

(** The 0/1 indicator of a list of communities over a list of columns. *)
Definition indicator_row (communities columns : list string) : list Z :=
  map (λ c, if decide (c ∈ communities) then 1%Z else 0%Z) columns.

Definition count_ones (v : list Z) : nat :=
  length (filter (λ x, x = 1%Z) v).

(** Total length of the entries of a text. *)
Definition entries_length (g : list PostRecord) : nat :=
  foldr (λ r n, String.length (astype_str (body r)) + n) 0 g.

(** * Properties *)

Example demo_index :
  create_subreddit_idx demo_posts = [("sub1", 0); ("sub2", 1)].
Proof. vm_compute. reflexivity. Qed.

Example demo_run :
  extract_features demo_posts demo_labels
  = Ok ([[1; 1]; [1; 0]]%Z, ["hi there"; "yo"], ["F"; "M"]).
Proof. vm_compute. reflexivity. Qed.

(** ** [unique] *)

Lemma unique_from_elem (l : list string) (seen : gset string) (x : string) :
  x ∈ unique_from seen l ↔ x ∈ l ∧ x ∉ seen.
Proof.
  revert seen. induction l as [|y l IH]; intros seen; simpl.
  - set_solver.
  - destruct (decide (y ∈ seen)) as [Hin|Hout].
    + rewrite IH. set_solver.
    + rewrite elem_of_cons, IH. split.
      * intros [->|[Hx Hs]]; set_solver.
      * intros [Hx Hs]. destruct (decide (x = y)); set_solver.
Qed.

Lemma unique_from_NoDup (l : list string) (seen : gset string) :
  NoDup (unique_from seen l).
Proof.
  revert seen. induction l as [|y l IH]; intros seen; simpl.
  - constructor.
  - destruct (decide (y ∈ seen)); [apply IH|].
    constructor; [|apply IH].
    rewrite unique_from_elem. set_solver.
Qed.

Lemma unique_from_app (l1 l2 : list string) (seen : gset string) :
  unique_from seen (l1 ++ l2)
  = unique_from seen l1 ++ unique_from (list_to_set l1 ∪ seen) l2.
Proof.
  revert seen. induction l1 as [|y l1 IH]; intros seen; simpl.
  - f_equal. set_solver.
  - destruct (decide (y ∈ seen)) as [Hin|Hout]; rewrite IH.
    + do 2 f_equal. set_solver.
    + simpl. do 3 f_equal. set_solver.
Qed.

Lemma unique_from_length (l : list string) (seen : gset string) :
  length (unique_from seen l) = size (list_to_set l ∖ seen : gset string).
Proof.
  revert seen. induction l as [|y l IH]; intros seen; simpl.
  - replace (∅ ∖ seen) with (∅ : gset string) by set_solver.
    by rewrite size_empty.
  - destruct (decide (y ∈ seen)) as [Hin|Hout].
    + rewrite IH. f_equal. set_solver.
    + simpl. rewrite IH.
      replace (({[y]} ∪ list_to_set l) ∖ seen)
        with ({[y]} ∪ (list_to_set l ∖ ({[y]} ∪ seen)) : gset string).
      * rewrite (size_union (C := gset string) {[y]}
                   (list_to_set l ∖ ({[y]} ∪ seen))) by set_solver.
        by rewrite size_singleton.
      * apply set_eq. intros z. destruct (decide (z = y)); set_solver.
Qed.

Lemma unique_elem (l : list string) (x : string) : x ∈ unique l ↔ x ∈ l.
Proof. unfold unique. rewrite unique_from_elem. set_solver. Qed.

Lemma unique_NoDup (l : list string) : NoDup (unique l).
Proof. apply unique_from_NoDup. Qed.

Lemma unique_length (l : list string) :
  length (unique l) = size (list_to_set l : gset string).
Proof.
  unfold unique. rewrite unique_from_length. f_equal. set_solver.
Qed.

(** The position of a value in [unique l] is the number of distinct values
    that occur before its first occurrence in [l]. *)
Lemma unique_first_occurrence (pre post : list string) (c : string) :
  c ∉ pre →
  unique (pre ++ c :: post) !! size (list_to_set pre : gset string) = Some c.
Proof.
  intros Hc. unfold unique. rewrite unique_from_app. simpl.
  destruct (decide (c ∈ list_to_set pre ∪ (∅ : gset string))) as [Hin|_].
  - set_solver.
  - rewrite <- unique_length. unfold unique.
    rewrite lookup_app_r by lia. by rewrite Nat.sub_diag.
Qed.


(** ** [first_pos] *)

Lemma first_pos_Some (c : string) (l : list string) (p : nat) :
  first_pos c l = Some p ↔ l !! p = Some c ∧ c ∉ take p l.
Proof.
  revert p. induction l as [|x l IH]; intros p; simpl.
  - split; [done|]. intros [H _]. by destruct p.
  - destruct (String.eqb_spec x c) as [->|Hne].
    + split.
      * intros [= <-]. simpl. split; [done|]. apply not_elem_of_nil.
      * intros [Hl Hn]. destruct p as [|p]; [done|].
        simpl in Hn. set_solver.
    + destruct p as [|p]; simpl.
      * split.
        -- destruct (first_pos c l); done.
        -- intros [[= ->] _]. done.
      * specialize (IH p). destruct (first_pos c l) as [q|]; simpl.
        -- split.
           ++ intros [= ->]. destruct IH as [[IH1 IH2] _]; [done|].
              split; [done|]. set_solver.
           ++ intros [Hl Hn]. f_equal. destruct IH as [_ IH].
              assert (Some q = Some p) as [= ->]; [|done].
              apply IH. set_solver.
        -- split; [done|]. intros [Hl Hn]. destruct IH as [_ IH].
           assert (@None nat = Some p) as [=]. apply IH. set_solver.
Qed.

Lemma first_pos_elem (c : string) (l : list string) :
  c ∈ l → ∃ p, first_pos c l = Some p.
Proof.
  induction l as [|x l IH]; simpl.
  - intros H. by apply elem_of_nil in H.
  - intros H. destruct (String.eqb_spec x c) as [->|Hne]; [by eexists|].
    destruct IH as [p ->]; [set_solver|]. by eexists.
Qed.

Lemma first_pos_split (c : string) (l : list string) (p : nat) :
  first_pos c l = Some p →
  l = take p l ++ c :: drop (S p) l ∧ c ∉ take p l.
Proof.
  rewrite first_pos_Some. intros [Hl Hn]. split; [|done].
  rewrite <- (take_drop_middle l p c) at 1; done.
Qed.

(** ** [create_subreddit_idx] *)

Lemma idx_length (data : list PostRecord) :
  length (create_subreddit_idx data) = length (unique (col_subreddit data)).
Proof.
  unfold create_subreddit_idx, Series, arange.
  rewrite length_zip_with, length_seq. lia.
Qed.

Lemma idx_lookup (data : list PostRecord) (i j : nat) (c : string) :
  create_subreddit_idx data !! i = Some (c, j)
  ↔ unique (col_subreddit data) !! i = Some c ∧ j = i.
Proof.
  unfold create_subreddit_idx, Series, arange.
  rewrite lookup_zip_with_Some. split.
  - intros (x & y & [= -> ->] & Hx & Hy).
    apply lookup_seq in Hy as [-> _]. done.
  - intros [Hc ->]. exists c, i. split; [done|]. split; [done|].
    apply lookup_seq. split; [done|]. by apply lookup_lt_Some in Hc.
Qed.

Lemma idx_elem (data : list PostRecord) (j : nat) (c : string) :
  (c, j) ∈ create_subreddit_idx data
  ↔ unique (col_subreddit data) !! j = Some c.
Proof.
  rewrite list_elem_of_lookup. split.
  - intros [i Hi]. apply idx_lookup in Hi as [Hc ->]. done.
  - intros Hc. exists j. by apply idx_lookup.
Qed.

Lemma idx_keys (data : list PostRecord) :
  map fst (create_subreddit_idx data) = unique (col_subreddit data).
Proof.
  unfold create_subreddit_idx, Series, arange.
  apply fst_zip. rewrite length_seq. lia.
Qed.

Lemma idx_values (data : list PostRecord) :
  map snd (create_subreddit_idx data)
  = seq 0 (length (create_subreddit_idx data)).
Proof.
  rewrite idx_length.
  unfold create_subreddit_idx, Series, arange.
  apply snd_zip. rewrite length_seq. lia.
Qed.

(** The keys of the index are pairwise different, its values are the
    positions below its size, and a key has one value. *)
Lemma idx_bijection (data : list PostRecord) :
  let idx := create_subreddit_idx data in
  NoDup (map fst idx)
  ∧ (∀ j, j < length idx ↔ ∃ c, (c, j) ∈ idx)
  ∧ (∀ c j j', (c, j) ∈ idx → (c, j') ∈ idx → j = j').
Proof.
  intros idx. subst idx.
  pose proof (unique_NoDup (col_subreddit data)) as Hnd.
  split; [by rewrite idx_keys|]. split.
  - intros j. rewrite idx_length. split.
    + intros Hj. apply lookup_lt_is_Some in Hj as [c Hc].
      exists c. by apply idx_elem.
    + intros [c Hc]. apply idx_elem in Hc. by apply lookup_lt_Some in Hc.
  - intros c j j' Hj Hj'. apply idx_elem in Hj, Hj'.
    eapply NoDup_lookup; eauto.
Qed.

(** C10. The index numbers the communities in order of first appearance:
    a community is mapped to the number of distinct communities met before
    its first occurrence, so one community has a smaller index than another
    exactly when its first occurrence comes earlier. *)
Theorem community_index_first_appearance (data : list PostRecord) :
  let idx := create_subreddit_idx data in
  let col := col_subreddit data in
  (∀ c i, (c, i) ∈ idx
          ↔ ∃ p, first_pos c col = Some p ∧ i = distinct_count (take p col))
  ∧ (∀ c c' i i' p p',
       (c, i) ∈ idx → (c', i') ∈ idx →
       first_pos c col = Some p → first_pos c' col = Some p' →
       (i < i' ↔ p < p')).
Proof.
  intros idx col. subst idx col.
  set (col := col_subreddit data).
  assert (Hfwd : ∀ c p, first_pos c col = Some p →
                        unique col !! distinct_count (take p col) = Some c).
  { intros c p Hp. apply first_pos_split in Hp as [Heq Hn].
    pose proof (unique_first_occurrence _ (drop (S p) col) _ Hn) as Hu.
    by rewrite <- Heq in Hu. }
  assert (Hchar : ∀ c i, (c, i) ∈ create_subreddit_idx data
          ↔ ∃ p, first_pos c col = Some p ∧ i = distinct_count (take p col)).
  { intros c i. rewrite idx_elem. fold col. split.
    - intros Hi.
      assert (c ∈ col) as Hc.
      { apply unique_elem. apply list_elem_of_lookup. eauto. }
      apply first_pos_elem in Hc as [p Hp]. exists p. split; [done|].
      eapply NoDup_lookup; [apply unique_NoDup|done|by apply Hfwd].
    - intros (p & Hp & ->). by apply Hfwd. }
  assert (Hmono : ∀ c c' p p',
            first_pos c col = Some p → first_pos c' col = Some p' →
            p < p' → distinct_count (take p col) < distinct_count (take p' col)).
  { intros c c' p p' Hp Hp' Hlt.
    apply first_pos_Some in Hp as [Hl Hn].
    unfold distinct_count. apply subset_size.
    assert (c ∈ take p' col) as Hc'.
    { apply list_elem_of_lookup. exists p. rewrite lookup_take_lt; done. }
    assert (take p col = take p (take p' col)) as Htk.
    { rewrite take_take. f_equal. lia. }
    split.
    - intros x Hx. apply elem_of_list_to_set in Hx. apply elem_of_list_to_set.
      rewrite Htk in Hx.
      apply list_elem_of_lookup in Hx as [k Hk].
      apply lookup_take_Some in Hk as [Hk _].
      apply list_elem_of_lookup. eauto.
    - intros Hsub. apply Hn.
      apply (elem_of_list_to_set (C := gset string)).
      apply Hsub. by apply elem_of_list_to_set. }
  split; [exact Hchar|].
  intros c c' i i' p p' Hi Hi' Hp Hp'.
  apply Hchar in Hi as (q & Hq & ->). apply Hchar in Hi' as (q' & Hq' & ->).
  assert (q = p) as -> by congruence. assert (q' = p') as -> by congruence.
  split.
  - intros Hlt. destruct (Nat.lt_trichotomy p p') as [?|[->|Hgt]]; [done|lia|].
    pose proof (Hmono _ _ _ _ Hp' Hp Hgt). lia.
  - by apply (Hmono c c').
Qed.

(** ** The error monad *)

Lemma comprehension_Ok {A B : Type} (f : A → result B) (g : A → B)
  (l : list A) :
  (∀ x, x ∈ l → f x = Ok (g x)) → comprehension f l = Ok (map g l).
Proof.
  induction l as [|x l IH]; intros Hf; simpl; [done|].
  rewrite Hf by set_solver. simpl. rewrite IH by set_solver. done.
Qed.

Lemma comprehension_Raise {A B : Type} (f : A → result B) (g : A → B)
  (l1 l2 : list A) (x : A) (e : exn) :
  (∀ y, y ∈ l1 → f y = Ok (g y)) → f x = Raise e →
  comprehension f (l1 ++ x :: l2) = Raise e.
Proof.
  induction l1 as [|y l1 IH]; intros Hf Hx; simpl.
  - by rewrite Hx.
  - rewrite Hf by set_solver. simpl. rewrite IH; [done| |done].
    intros z Hz. apply Hf. set_solver.
Qed.

(** ** [loc] on an index with pairwise different labels *)

Lemma eqb_True (a b : string) : Is_true (String.eqb a b) ↔ a = b.
Proof.
  destruct (String.eqb_spec a b) as [->|Hne]; simpl; [done|].
  split; [done|]. intros ->. done.
Qed.

Lemma loc_one_missing (s : list (string * nat)) (c : string) :
  c ∉ map fst s → loc_one s c = Raise (KeyError c).
Proof.
  intros Hc. unfold loc_one.
  destruct (filter _ s) as [|[k v] hits] eqn:Hf; [done|].
  exfalso. apply Hc.
  assert ((k, v) ∈ filter (λ kv, String.eqb kv.1 c) s) as Hin.
  { rewrite Hf. left. }
  apply list_elem_of_filter in Hin as [Hk Hin]. apply eqb_True in Hk.
  simpl in Hk. subst k. apply list_elem_of_In, in_map_iff.
  exists (c, v). split; [done|]. by apply list_elem_of_In.
Qed.

Lemma filter_key_NoDup (s : list (string * nat)) (c : string) (j : nat) :
  NoDup (map fst s) → (c, j) ∈ s →
  filter (λ kv, String.eqb kv.1 c) s = [(c, j)].
Proof.
  induction s as [|[k v] s IH]; intros Hnd Hin.
  - by apply elem_of_nil in Hin.
  - simpl in Hnd. apply NoDup_cons in Hnd as [Hk Hnd].
    apply elem_of_cons in Hin as [[= <- <-]|Hin].
    + rewrite filter_cons_True by (by apply eqb_True). f_equal.
      destruct (filter _ s) as [|[k' v'] hits] eqn:Hf; [done|].
      exfalso. apply Hk.
      assert ((k', v') ∈ filter (λ kv, String.eqb kv.1 c) s) as Hin.
      { rewrite Hf. left. }
      apply list_elem_of_filter in Hin as [Hk' Hin]. apply eqb_True in Hk'.
      simpl in Hk'. subst k'. apply list_elem_of_In, in_map_iff.
      exists (c, v'). split; [done|]. by apply list_elem_of_In.
    + rewrite filter_cons_False; [by apply IH|].
      rewrite eqb_True. simpl. intros ->. apply Hk.
      apply list_elem_of_In, in_map_iff.
      exists (c, j). split; [done|]. by apply list_elem_of_In.
Qed.

Lemma loc_one_found (s : list (string * nat)) (c : string) (j : nat) :
  NoDup (map fst s) → (c, j) ∈ s → loc_one s c = Ok [j].
Proof.
  intros Hnd Hin. unfold loc_one. by rewrite (filter_key_NoDup s c j).
Qed.

(** The first label that is not in the index decides the exception. *)
Lemma loc_Raise (s : list (string * nat)) (labels : list string)
  (c : string) :
  c ∈ labels → c ∉ map fst s →
  ∃ c', c' ∈ labels ∧ c' ∉ map fst s ∧ loc s labels = Raise (KeyError c').
Proof.
  induction labels as [|x labels IH]; intros Hin Hc.
  - by apply elem_of_nil in Hin.
  - unfold loc. simpl.
    destruct (decide (x ∈ map fst s)) as [Hx|Hx].
    + apply elem_of_cons in Hin as [->|Hin]; [done|].
      destruct (IH Hin Hc) as (c' & Hc' & Hmiss & Hloc).
      exists c'. split; [set_solver|]. split; [done|].
      unfold loc in Hloc.
      destruct (loc_one s x) as [hits|e] eqn:Hone; simpl.
      * destruct (comprehension (loc_one s) labels); simpl in *; done.
      * unfold loc_one in Hone.
        destruct (filter _ s) eqn:Hf; [|done].
        exfalso. apply list_elem_of_In, in_map_iff in Hx as ([k v] & Hk & Hkv).
        simpl in Hk. subst k.
        eapply (filter_nil_not_elem_of _ s (x, v)); [exact Hf| |].
        -- by apply eqb_True.
        -- by apply list_elem_of_In.
    + exists x. split; [set_solver|]. split; [done|].
      by rewrite loc_one_missing.
Qed.

Lemma loc_Ok (s : list (string * nat)) (labels : list string)
  (js : list nat) :
  NoDup (map fst s) → Forall2 (λ c j, (c, j) ∈ s) labels js →
  loc s labels = Ok js.
Proof.
  intros Hnd Hall. unfold loc.
  assert (comprehension (loc_one s) labels = Ok (map (λ j, [j]) js)) as ->.
  { induction Hall as [|c j labels js Hcj Hall IH]; simpl; [done|].
    rewrite (loc_one_found s c j) by done. simpl. by rewrite IH. }
  simpl. f_equal. clear Hall.
  induction js as [|j js IH]; simpl; [done|]. by f_equal.
Qed.

Lemma index_resolves (data : list PostRecord) (labels : list string) :
  Forall (λ c, c ∈ col_subreddit data) labels →
  ∃ js, Forall2 (λ c j, (c, j) ∈ create_subreddit_idx data) labels js.
Proof.
  induction 1 as [|c labels Hc Hall [js IH]].
  - exists []. constructor.
  - apply unique_elem, list_elem_of_lookup in Hc as [j Hj].
    exists (j :: js). constructor; [by apply idx_elem|done].
Qed.

(** ** The assignment loop *)

Lemma mark_all_length (row : list Z) (js : list nat) :
  length (mark_all row js) = length row.
Proof.
  revert row. induction js as [|j js IH]; intros row; simpl; [done|].
  unfold mark_all in *. simpl. rewrite IH. apply length_insert.
Qed.

Lemma mark_all_hit (row : list Z) (js : list nat) (k : nat) :
  k ∈ js → k < length row → mark_all row js !! k = Some 1%Z.
Proof.
  revert row. induction js as [|j js IH]; intros row Hin Hlt.
  - by apply elem_of_nil in Hin.
  - unfold mark_all in *. simpl.
    destruct (decide (k ∈ js)) as [Hk|Hk].
    + apply IH; [done|]. by rewrite length_insert.
    + apply elem_of_cons in Hin as [->|Hin]; [|done].
      clear IH. revert row Hlt.
      induction js as [|j' js IH]; intros row Hlt; simpl.
      * by apply list_lookup_insert_eq.
      * destruct (decide (j = j')) as [->|Hne].
        -- rewrite list_insert_insert_eq. apply IH; [set_solver|done].
        -- rewrite list_insert_insert_ne by done.
           apply IH; [set_solver|]. by rewrite length_insert.
Qed.

Lemma mark_all_miss (row : list Z) (js : list nat) (k : nat) :
  k ∉ js → mark_all row js !! k = row !! k.
Proof.
  revert row. induction js as [|j js IH]; intros row Hk; [done|].
  unfold mark_all in *. simpl. rewrite IH by set_solver.
  apply list_lookup_insert_ne. set_solver.
Qed.

Lemma set_all_Ok (row : list Z) (js : list nat) :
  Forall (λ j, j < length row) js →
  set_all [row] js = Ok [mark_all row js].
Proof.
  revert row. induction js as [|j js IH]; intros row Hall; [done|].
  apply Forall_cons in Hall as [Hj Hall]. simpl.
  destruct (decide (j < length row)); [|done]. simpl.
  rewrite IH; [done|].
  eapply Forall_impl; [exact Hall|]. intros k Hk. by rewrite length_insert.
Qed.

(** ** [extract_subreddits] against an index built from the dataset *)

Lemma extract_subreddits_Ok (data group : list PostRecord) :
  Forall (λ c, c ∈ col_subreddit data) (col_subreddit group) →
  ∃ v, extract_subreddits group (create_subreddit_idx data) = Ok [v]
       ∧ is_membership_vector (create_subreddit_idx data)
           (col_subreddit group) v.
Proof.
  intros Hsub. set (idx := create_subreddit_idx data).
  destruct (idx_bijection data) as (Hnd & Hrange & Hfun).
  fold idx in Hnd, Hrange, Hfun.
  destruct (index_resolves data _ Hsub) as [js Hjs]. fold idx in Hjs.
  assert (Forall (λ j, j < length idx) js) as Hbound.
  { apply Forall_forall. intros j Hj.
    apply list_elem_of_lookup in Hj as [i Hi].
    destruct (Forall2_lookup_r _ _ _ _ _ Hjs Hi) as (c & _ & Hc).
    apply Hrange. eauto. }
  exists (mark_all (replicate (length idx) 0%Z) js). split.
  - unfold extract_subreddits. rewrite (loc_Ok _ _ js) by done. simpl.
    unfold dok_array_1. apply set_all_Ok. by rewrite length_replicate.
  - split; [by rewrite mark_all_length, length_replicate|].
    intros j Hj. split.
    + intros (c & Hc & Hcj).
      apply mark_all_hit; [|by rewrite length_replicate].
      apply list_elem_of_lookup in Hc as [i Hi].
      destruct (Forall2_lookup_l _ _ _ _ _ Hjs Hi) as (j' & Hj' & Hcj').
      rewrite (Hfun c j j') by done.
      apply list_elem_of_lookup. eauto.
    + intros Hno. rewrite mark_all_miss.
      * by apply lookup_replicate_2.
      * intros Hin. apply Hno.
        apply list_elem_of_lookup in Hin as [i Hi].
        destruct (Forall2_lookup_r _ _ _ _ _ Hjs Hi) as (c & Hc & Hcj).
        exists c. split; [|done]. apply list_elem_of_lookup. eauto.
Qed.

(** A membership vector is determined by the index and the set of
    communities. *)
Lemma is_membership_vector_unique (idx : list (string * nat))
  (cs1 cs2 : list string) (v1 v2 : list Z) :
  (∀ c, c ∈ cs1 ↔ c ∈ cs2) →
  is_membership_vector idx cs1 v1 → is_membership_vector idx cs2 v2 →
  v1 = v2.
Proof.
  intros Hsame [Hl1 H1] [Hl2 H2]. apply list_eq_same_length with (length idx);
    [done|done|].
  intros j x y Hj Hx Hy.
  destruct (H1 j Hj) as [H1y H1n]. destruct (H2 j Hj) as [H2y H2n].
  destruct (v1 !! j) as [x'|] eqn:E1; [|done].
  assert (Decision (Exists (λ c, (c, j) ∈ idx) cs1)) as [Hex|Hnex] by apply _.
  - apply Exists_exists in Hex as (c & Hc & Hcj).
    rewrite H1y in Hx by eauto.
    rewrite H2y in Hy; [congruence|]. exists c. split; [by apply Hsame|done].
  - rewrite H1n in Hx.
    + rewrite H2n in Hy; [congruence|].
      intros (c & Hc & Hcj). apply Hnex, Exists_exists.
      exists c. split; [by apply Hsame|done].
    + intros (c & Hc & Hcj). apply Hnex, Exists_exists. eauto.
Qed.

(** ** Groups *)

Lemma get_group_elem (data : list PostRecord) (a : string) (r : PostRecord) :
  r ∈ get_group data a ↔ r ∈ data ∧ author r = a.
Proof.
  unfold get_group. rewrite list_elem_of_filter, eqb_True. tauto.
Qed.

Lemma col_subreddit_elem (data : list PostRecord) (c : string) :
  c ∈ col_subreddit data ↔ ∃ r, r ∈ data ∧ subreddit r = c.
Proof.
  unfold col_subreddit. rewrite list_elem_of_In, in_map_iff.
  split; intros (r & H1 & H2); exists r; rewrite list_elem_of_In in *; done.
Qed.

Lemma col_author_elem (data : list PostRecord) (a : string) :
  a ∈ col_author data ↔ ∃ r, r ∈ data ∧ author r = a.
Proof.
  unfold col_author. rewrite list_elem_of_In, in_map_iff.
  split; intros (r & H1 & H2); exists r; rewrite list_elem_of_In in *; done.
Qed.

Lemma sub_table_communities (data group : list PostRecord) :
  group ⊆ data →
  Forall (λ c, c ∈ col_subreddit data) (col_subreddit group).
Proof.
  intros Hsub. apply Forall_forall. intros c Hc.
  apply col_subreddit_elem in Hc as (r & Hr & <-).
  apply col_subreddit_elem. exists r. split; [by apply Hsub|done].
Qed.

Lemma get_group_sub (data : list PostRecord) (a : string) :
  get_group data a ⊆ data.
Proof. intros r Hr. by apply get_group_elem in Hr as [Hr _]. Qed.

Lemma group_keys_elem (data : list PostRecord) (a : string) :
  a ∈ merge_sort String.le (unique (col_author data)) ↔ a ∈ col_author data.
Proof. rewrite merge_sort_Permutation. apply unique_elem. Qed.

(** ** The per-author dictionaries *)

Lemma membership_block_Ok (data : list PostRecord) (a : string) :
  extract_subreddits (get_group data a) (create_subreddit_idx data)
  = Ok (membership_block data a)
  ∧ membership_block data a = [membership_row data a]
  ∧ is_membership_vector (create_subreddit_idx data)
      (col_subreddit (get_group data a)) (membership_row data a).
Proof.
  destruct (extract_subreddits_Ok data (get_group data a)) as (v & Hv & Hm).
  { apply sub_table_communities, get_group_sub. }
  unfold membership_row, membership_block. rewrite Hv. done.
Qed.

Lemma insert_all_lookup {V : Type} (f : string → V) (keys : list string)
  (d : gmap string V) (a : string) :
  foldl (λ d k, <[k := f k]> d) d keys !! a
  = if decide (a ∈ keys) then Some (f a) else d !! a.
Proof.
  revert d. induction keys as [|k keys IH]; intros d; simpl.
  - destruct (decide (a ∈ [])) as [H|_]; [by apply elem_of_nil in H|done].
  - rewrite IH. destruct (decide (a ∈ keys)) as [Hin|Hout].
    + rewrite decide_True by set_solver. done.
    + destruct (decide (a = k)) as [->|Hne].
      * rewrite decide_True by set_solver. apply lookup_insert_eq.
      * rewrite decide_False by set_solver. by apply lookup_insert_ne.
Qed.

Lemma fill_subreddits_dict_Ok (data : list PostRecord) (keys : list string)
  (d : gmap string (list (list Z))) :
  fill_subreddits_dict (map (λ a, (a, get_group data a)) keys)
    (create_subreddit_idx data) d
  = Ok (foldl (λ d k, <[k := membership_block data k]> d) d keys).
Proof.
  revert d. induction keys as [|k keys IH]; intros d; simpl; [done|].
  destruct (membership_block_Ok data k) as (-> & _). simpl. apply IH.
Qed.

Lemma fill_text_dict_eq (data : list PostRecord) (keys : list string)
  (d : gmap string string) :
  fill_text_dict (map (λ a, (a, get_group data a)) keys) d
  = foldl (λ d k, <[k := text_of_author data k]> d) d keys.
Proof.
  revert d. induction keys as [|k keys IH]; intros d; simpl; [done|]. apply IH.
Qed.

Lemma getitem_filled {V : Type} (f : string → V) (keys : list string)
  (a : string) :
  getitem (foldl (λ d k, <[k := f k]> d) ∅ keys) a
  = if decide (a ∈ keys) then Ok (f a) else Raise (KeyError a).
Proof.
  unfold getitem. rewrite insert_all_lookup.
  destruct (decide (a ∈ keys)); [done|]. by rewrite lookup_empty.
Qed.

(** ** [vstack] of one-row blocks *)

Lemma concat_singletons {A B : Type} (f : A → B) (l : list A) :
  concat (map (λ x, [f x]) l) = map f l.
Proof. induction l as [|x l IH]; simpl; [done|]. by f_equal. Qed.

Lemma vstack_rows {A : Type} (f : A → list Z) (n : nat) (l : list A) :
  l ≠ [] → (∀ x, x ∈ l → length (f x) = n) →
  vstack (map (λ x, [f x]) l) = Ok (map f l).
Proof.
  intros Hne Hlen. destruct l as [|x l]; [done|]. simpl.
  assert (forallb (λ b', Nat.eqb (ncols b') (length (f x)))
            (map (λ x, [f x]) l) = true) as ->.
  { apply forallb_forall. intros b Hb. apply in_map_iff in Hb as (y & <- & Hy).
    simpl. apply Nat.eqb_eq. rewrite !Hlen; [done|set_solver|].
    right. by apply list_elem_of_In. }
  by rewrite concat_singletons.
Qed.

(** ** [extract_features], case by case *)

Lemma first_absent_split (present : string → Prop)
  `{∀ a, Decision (present a)} (l : list string) :
  Forall present l
  ∨ ∃ l1 x l2, l = l1 ++ x :: l2 ∧ Forall present l1 ∧ ¬ present x.
Proof.
  induction l as [|y l [IH|(l1 & x & l2 & -> & Hl1 & Hx)]].
  - left. constructor.
  - destruct (decide (present y)) as [Hy|Hy].
    + left. by constructor.
    + right. exists [], y, l. done.
  - destruct (decide (present y)) as [Hy|Hy].
    + right. exists (y :: l1), x, l2. split; [done|]. split; [|done].
      by constructor.
    + right. exists [], y, (l1 ++ x :: l2). done.
Qed.

Lemma extract_features_unfold (data : list PostRecord)
  (target : list LabelRecord) :
  let keys := merge_sort String.le (unique (col_author data)) in
  extract_features data target
  = (blocks ← comprehension
       (getitem (foldl (λ d k, <[k := membership_block data k]> d) ∅ keys))
       (target_author target);
     X ← vstack blocks;
     texts ← comprehension
       (getitem (foldl (λ d k, <[k := text_of_author data k]> d) ∅ keys))
       (target_author target);
     Ok (X, texts, target_gender target)).
Proof.
  intros keys. unfold extract_features, groupby_author. fold keys.
  rewrite fill_subreddits_dict_Ok, fill_text_dict_eq. done.
Qed.

Lemma extract_features_Ok (data : list PostRecord)
  (target : list LabelRecord) :
  target ≠ [] →
  Forall (λ a, a ∈ col_author data) (target_author target) →
  extract_features data target
  = Ok (map (membership_row data) (target_author target),
        map (text_of_author data) (target_author target),
        target_gender target).
Proof.
  intros Hne Hall. rewrite extract_features_unfold.
  rewrite (comprehension_Ok _ (membership_block data)).
  2:{ intros a Ha. rewrite getitem_filled, decide_True; [done|].
      apply group_keys_elem. by eapply Forall_forall in Hall. }
  simpl.
  assert (map (membership_block data) (target_author target)
          = map (λ a, [membership_row data a]) (target_author target)) as ->.
  { apply map_ext. intros a. by destruct (membership_block_Ok data a) as (_ & -> & _). }
  rewrite (vstack_rows _ (length (create_subreddit_idx data))).
  2:{ unfold target_author. destruct target; [done|]. done. }
  2:{ intros a _. by destruct (membership_block_Ok data a) as (_ & _ & [-> _]). }
  simpl.
  rewrite (comprehension_Ok _ (text_of_author data)).
  2:{ intros a Ha. rewrite getitem_filled, decide_True; [done|].
      apply group_keys_elem. by eapply Forall_forall in Hall. }
  done.
Qed.

Lemma extract_features_KeyError (data : list PostRecord)
  (target : list LabelRecord) (l1 l2 : list string) (a : string) :
  target_author target = l1 ++ a :: l2 →
  Forall (λ a, a ∈ col_author data) l1 → a ∉ col_author data →
  extract_features data target = Raise (KeyError a).
Proof.
  intros Heq Hl1 Ha. rewrite extract_features_unfold. rewrite Heq.
  rewrite (comprehension_Raise _ (membership_block data) l1 l2 a (KeyError a)).
  - done.
  - intros b Hb. rewrite getitem_filled, decide_True; [done|].
    apply group_keys_elem. by eapply Forall_forall in Hl1.
  - rewrite getitem_filled, decide_False; [done|].
    by rewrite group_keys_elem.
Qed.

Lemma extract_features_no_labels (data : list PostRecord) :
  extract_features data [] = Raise (ValueError "blocks must be 2-D").
Proof. by rewrite extract_features_unfold. Qed.

(** ** Texts *)

Lemma str_app_assoc (s1 s2 s3 : string) :
  (s1 +:+ s2) +:+ s3 = s1 +:+ s2 +:+ s3.
Proof.
  induction s1 as [|ch s1 IH]; [done|].
  change (String ch ((s1 +:+ s2) +:+ s3) = String ch (s1 +:+ s2 +:+ s3)).
  by f_equal.
Qed.

Lemma str_app_nil_r (s : string) : s +:+ "" = s.
Proof.
  induction s as [|ch s IH]; [done|].
  change (String ch (s +:+ "") = String ch s). by f_equal.
Qed.

Lemma extract_text_single (r : PostRecord) :
  extract_text [r] = astype_str (body r).
Proof. done. Qed.

Lemma extract_text_cons (r : PostRecord) (g : list PostRecord) :
  g ≠ [] →
  extract_text (r :: g) = astype_str (body r) +:+ " " +:+ extract_text g.
Proof. destruct g; done. Qed.

Lemma get_group_cons (r : PostRecord) (data : list PostRecord) (a : string) :
  get_group (r :: data) a
  = if String.eqb (author r) a then r :: get_group data a
    else get_group data a.
Proof.
  unfold get_group. destruct (String.eqb (author r) a) eqn:E.
  - apply filter_cons_True. by rewrite E.
  - apply filter_cons_False. rewrite E. intros [].
Qed.

Lemma get_group_nil (data : list PostRecord) (a : string) :
  get_group data a = [] ↔ a ∉ col_author data.
Proof.
  rewrite col_author_elem. split.
  - intros Hg (r & Hr & Ha).
    assert (r ∈ get_group data a) as Hin by by apply get_group_elem.
    rewrite Hg in Hin. by apply elem_of_nil in Hin.
  - intros Hno. destruct (get_group data a) as [|r g] eqn:Hg; [done|].
    exfalso. apply Hno. exists r. apply get_group_elem. rewrite Hg. left.
Qed.

Lemma text_spec_eq (data : list PostRecord) (a : string) :
  text_spec a data
  = match get_group data a with
    | [] => None
    | g => Some (extract_text g)
    end.
Proof.
  induction data as [|r data IH]; [done|].
  simpl. rewrite get_group_cons.
  destruct (String.eqb (author r) a); [|done].
  rewrite IH. destruct (get_group data a) as [|r' g]; done.
Qed.

Lemma extract_text_after (r : PostRecord) (g : list PostRecord) :
  extract_text (r :: g) = astype_str (body r) +:+ entries_after g.
Proof.
  revert r. induction g as [|r' g IH]; intros r.
  - rewrite extract_text_single. simpl. by rewrite str_app_nil_r.
  - rewrite extract_text_cons by done. by rewrite IH.
Qed.

Lemma extract_text_middle (g1 g2 : list PostRecord) (r : PostRecord) :
  extract_text (g1 ++ r :: g2)
  = entries_before g1 +:+ astype_str (body r) +:+ entries_after g2.
Proof.
  induction g1 as [|x g1 IH]; simpl.
  - apply extract_text_after.
  - rewrite extract_text_cons by (by destruct g1).
    rewrite IH. by rewrite !str_app_assoc.
Qed.

Lemma text_dict_lookup (data : list PostRecord) (a : string) :
  fill_text_dict (groupby_author data) ∅ !! a
  = if decide (a ∈ col_author data) then Some (text_of_author data a) else None.
Proof.
  unfold groupby_author. rewrite fill_text_dict_eq, insert_all_lookup.
  destruct (decide (a ∈ col_author data)) as [Ha|Ha].
  - rewrite decide_True; [done|]. by apply group_keys_elem.
  - rewrite decide_False; [apply lookup_empty|]. by rewrite group_keys_elem.
Qed.

Lemma text_dict_spec (data : list PostRecord) (a : string) :
  fill_text_dict (groupby_author data) ∅ !! a = text_spec a data.
Proof.
  rewrite text_dict_lookup, text_spec_eq. unfold text_of_author.
  destruct (decide (a ∈ col_author data)) as [Ha|Ha].
  - destruct (get_group data a) eqn:Hg; [|done].
    by apply get_group_nil in Hg.
  - apply get_group_nil in Ha. by rewrite Ha.
Qed.

(** ** Reading the outputs position by position *)

Lemma lookup_map {A B : Type} (f : A → B) (l : list A) (i : nat) :
  map f l !! i = f <$> l !! i.
Proof.
  revert i. induction l as [|x l IH]; intros [|i]; simpl; auto.
Qed.

Lemma extract_subreddits_Raise (group : list PostRecord)
  (idx : list (string * nat)) (c : string) :
  c ∈ col_subreddit group → c ∉ map fst idx →
  ∃ c', c' ∈ col_subreddit group ∧ c' ∉ map fst idx
        ∧ extract_subreddits group idx = Raise (KeyError c').
Proof.
  intros Hc Hmiss.
  destruct (loc_Raise idx _ c Hc Hmiss) as (c' & Hc' & Hmiss' & Hloc).
  exists c'. split; [done|]. split; [done|].
  unfold extract_subreddits. by rewrite Hloc.
Qed.

Lemma target_author_present (data : list PostRecord)
  (target : list LabelRecord) :
  (∀ r, r ∈ target → label_author r ∈ col_author data)
  ↔ Forall (λ a, a ∈ col_author data) (target_author target).
Proof.
  unfold target_author. rewrite Forall_forall. split.
  - intros H a Ha. apply list_elem_of_In, in_map_iff in Ha as (r & <- & Hr).
    apply H. by apply list_elem_of_In.
  - intros H r Hr. apply H. apply list_elem_of_In, in_map_iff.
    exists r. split; [done|]. by apply list_elem_of_In.
Qed.

(** * The claims *)

(** X17. For every post dataset and every label sequence with at least one
    record whose authors all appear in the post dataset, [extract_features]
    returns three outputs with one entry per label record, and at every
    position i the matrix row is the membership vector of the i-th labelled
    author, the text is that author's concatenated text and the label is the
    i-th label. *)
Theorem aligned_outputs (data : list PostRecord) (target : list LabelRecord) :
  target ≠ [] →
  (∀ r, r ∈ target → label_author r ∈ col_author data) →
  ∃ X T Y,
    extract_features data target = Ok (X, T, Y)
    ∧ length X = length target
    ∧ length T = length target
    ∧ length Y = length target
    ∧ ∀ i r, target !! i = Some r →
        (∃ v, X !! i = Some v
              ∧ is_membership_vector (create_subreddit_idx data)
                  (col_subreddit (get_group data (label_author r))) v)
        ∧ is_Some (T !! i)
        ∧ T !! i = text_spec (label_author r) data
        ∧ Y !! i = Some (gender r).
Proof.
  intros Hne Hall.
  pose proof (proj1 (target_author_present data target) Hall) as Hall'.
  eexists _, _, _. split; [by apply extract_features_Ok|].
  unfold target_author, target_gender. rewrite !length_map.
  repeat split.
  - exists (membership_row data (label_author r)). split.
    + rewrite !lookup_map, H. done.
    + by destruct (membership_block_Ok data (label_author r)) as (_ & _ & ?).
  - rewrite !lookup_map, H. by eexists.
  - rewrite !lookup_map, H. simpl.
    rewrite <- text_dict_spec, text_dict_lookup.
    rewrite decide_True; [done|].
    apply Hall. apply list_elem_of_lookup. eauto.
  - by rewrite lookup_map, H.
Qed.

Lemma aligned_outputs_demo :
  ∃ X T Y,
    extract_features demo_posts demo_labels = Ok (X, T, Y)
    ∧ length X = 2 ∧ length T = 2 ∧ length Y = 2
    ∧ ∀ i r, demo_labels !! i = Some r →
        (∃ v, X !! i = Some v
              ∧ is_membership_vector (create_subreddit_idx demo_posts)
                  (col_subreddit (get_group demo_posts (label_author r))) v)
        ∧ is_Some (T !! i)
        ∧ T !! i = text_spec (label_author r) demo_posts
        ∧ Y !! i = Some (gender r).
Proof.
  apply (aligned_outputs demo_posts demo_labels).
  - discriminate.
  - intros r Hr. unfold demo_labels in Hr.
    apply elem_of_cons in Hr as [->|Hr]; [vm_compute; set_solver|].
    apply elem_of_cons in Hr as [->|Hr]; [vm_compute; set_solver|].
    by apply elem_of_nil in Hr.
Defined.

(** C1. The three outputs are promised for every label sequence whose
    authors all appear in the posts, with exactly |LabelRecords| matrix
    rows.  On the empty label sequence the precondition holds (there is no
    labelled author), yet the run returns no outputs at all: the stacking
    step at line 84 raises ValueError, where the text and label outputs
    would have been empty lists. *)
Lemma aligned_outputs_need_a_label :
  (∀ r, r ∈ @nil LabelRecord → label_author r ∈ col_author demo_posts)
  ∧ (¬ ∃ X T Y, extract_features demo_posts [] = Ok (X, T, Y)
                ∧ length X = length (@nil LabelRecord))
  ∧ extract_features demo_posts [] = Raise (ValueError "blocks must be 2-D")
  ∧ comprehension
      (getitem (fill_text_dict (groupby_author demo_posts) ∅))
      (target_author []) = Ok []
  ∧ target_gender [] = [].
Proof.
  split; [|split; [|split; [|split]]].
  - intros r Hr. by apply elem_of_nil in Hr.
  - intros (X & T & Y & Hrun & _). vm_compute in Hrun. discriminate.
  - vm_compute. reflexivity.
  - reflexivity.
  - reflexivity.
Qed.

(** C2. For every author of the dataset and the community index built from
    the dataset, the membership vector stored for the author has a 1 at
    position [CommunityIndex[c]] for each community c the author posted in
    and a 0 everywhere else; and the construction is idempotent: two groups
    of posts of the dataset with the same set of communities, however often
    each is repeated, give the same vector. *)
Theorem membership_vector_binary (data : list PostRecord) (a : string) :
  a ∈ col_author data →
  let idx := create_subreddit_idx data in
  (∃ d v, fill_subreddits_dict (groupby_author data) idx ∅ = Ok d
          ∧ d !! a = Some [v]
          ∧ extract_subreddits (get_group data a) idx = Ok [v]
          ∧ is_membership_vector idx (col_subreddit (get_group data a)) v)
  ∧ (∀ g1 g2 : list PostRecord,
       g1 ⊆ data → g2 ⊆ data →
       (∀ c, c ∈ col_subreddit g1 ↔ c ∈ col_subreddit g2) →
       extract_subreddits g1 idx = extract_subreddits g2 idx).
Proof.
  intros Ha idx. subst idx. split.
  - destruct (membership_block_Ok data a) as (Hrun & Hblock & Hvec).
    eexists _, (membership_row data a). split.
    { unfold groupby_author. apply fill_subreddits_dict_Ok. }
    split.
    { rewrite insert_all_lookup, decide_True by (by apply group_keys_elem).
      by rewrite Hblock. }
    split; [by rewrite Hrun, Hblock|done].
  - intros g1 g2 H1 H2 Hsame.
    destruct (extract_subreddits_Ok data g1) as (v1 & -> & Hv1);
      [by apply sub_table_communities|].
    destruct (extract_subreddits_Ok data g2) as (v2 & -> & Hv2);
      [by apply sub_table_communities|].
    do 2 f_equal. by eapply is_membership_vector_unique.
Qed.

(** Posting twice to sub1 gives the same vector as posting once. *)
Lemma membership_vector_binary_demo :
  extract_subreddits
    [mkPost "a1" "sub1" (Some "hi"); mkPost "a1" "sub1" (Some "hi")]
    (create_subreddit_idx demo_posts)
  = extract_subreddits [mkPost "a1" "sub1" (Some "hi")]
      (create_subreddit_idx demo_posts).
Proof.
  assert ("a1" ∈ col_author demo_posts) as Ha by (vm_compute; set_solver).
  apply (proj2 (membership_vector_binary demo_posts "a1" Ha)).
  - unfold demo_posts. set_solver.
  - unfold demo_posts. set_solver.
  - intros c. simpl. set_solver.
Defined.

(** C3. For every author, the text stored for the author is the
    concatenation of the author's post bodies in dataset order, each cast to
    text, with exactly one space between consecutive entries and nothing
    else changed; bodies hi and there give exactly the text hi there. *)
Theorem author_text_concatenation (data : list PostRecord) (a : string) :
  fill_text_dict (groupby_author data) ∅ !! a = text_spec a data
  ∧ (a ∈ col_author data →
     fill_text_dict (groupby_author data) ∅ !! a
     = Some (join " " (map astype_str (col_body (get_group data a)))))
  ∧ (col_body (get_group data a) = [Some "hi"; Some "there"] →
     fill_text_dict (groupby_author data) ∅ !! a = Some "hi there").
Proof.
  split; [apply text_dict_spec|]. split.
  - intros Ha. rewrite text_dict_lookup, decide_True by done. done.
  - intros Hb. rewrite text_dict_lookup.
    destruct (decide (a ∈ col_author data)) as [Ha|Ha].
    + unfold text_of_author, extract_text. by rewrite Hb.
    + apply get_group_nil in Ha. by rewrite Ha in Hb.
Qed.

Lemma author_text_concatenation_demo :
  fill_text_dict (groupby_author demo_posts) ∅ !! "a1" = Some "hi there".
Proof.
  apply (proj2 (proj2 (author_text_concatenation demo_posts "a1"))).
  reflexivity.
Defined.

(** C4. The community index has one entry per distinct community of the
    dataset, its keys are pairwise different, and it is a bijection between
    the communities of the dataset and the positions 0, ..., N-1, where N is
    its size.  The empty dataset gives the empty index. *)
Theorem community_index_dense_bijection (data : list PostRecord) :
  let idx := create_subreddit_idx data in
  let N := length idx in
  N = distinct_count (col_subreddit data)
  ∧ NoDup (map fst idx)
  ∧ (∀ c, c ∈ col_subreddit data ↔ ∃ j, (c, j) ∈ idx)
  ∧ (∀ j, j < N ↔ ∃ c, (c, j) ∈ idx)
  ∧ (∀ c j j', (c, j) ∈ idx → (c, j') ∈ idx → j = j')
  ∧ (∀ c c' j, (c, j) ∈ idx → (c', j) ∈ idx → c = c')
  ∧ create_subreddit_idx [] = [].
Proof.
  intros idx N. subst idx N.
  destruct (idx_bijection data) as (Hnd & Hrange & Hfun).
  split; [rewrite idx_length; apply unique_length|].
  split; [done|]. split; [|split; [done|split; [done|split; [|done]]]].
  - intros c. split.
    + intros Hc. apply unique_elem, list_elem_of_lookup in Hc as [j Hj].
      exists j. by apply idx_elem.
    + intros [j Hj]. apply idx_elem in Hj.
      apply unique_elem. apply list_elem_of_lookup. eauto.
  - intros c c' j Hj Hj'. apply idx_elem in Hj, Hj'. congruence.
Qed.

(** C5. When some label record names an author who never appears in the
    posts, the pipeline raises KeyError for such an author (the first one in
    label order) and returns nothing. *)
Theorem missing_author_raises (data : list PostRecord)
  (target : list LabelRecord) (r : LabelRecord) :
  r ∈ target → label_author r ∉ col_author data →
  ∃ a, a ∈ target_author target
       ∧ a ∉ col_author data
       ∧ extract_features data target = Raise (KeyError a).
Proof.
  intros Hr Hmiss.
  destruct (first_absent_split (λ a, a ∈ col_author data)
              (target_author target))
    as [Hall|(l1 & a & l2 & Heq & Hl1 & Ha)].
  - exfalso. apply Hmiss. by apply (target_author_present data target).
  - exists a. split; [rewrite Heq; set_solver|]. split; [done|].
    by eapply extract_features_KeyError.
Qed.

Lemma missing_author_raises_demo :
  ∃ a, a ∈ ["a1"; "a3"]
       ∧ a ∉ col_author demo_posts
       ∧ extract_features demo_posts [mkLabel "a1" "F"; mkLabel "a3" "M"]
         = Raise (KeyError a).
Proof.
  apply (missing_author_raises demo_posts
           [mkLabel "a1" "F"; mkLabel "a3" "M"] (mkLabel "a3" "M")).
  - set_solver.
  - vm_compute. set_solver.
Defined.

(** C6. On the empty post sequence with the empty label sequence the index
    is empty, but the pipeline does not complete: stacking an empty list of
    rows raises ValueError. *)
Theorem empty_dataset_run :
  create_subreddit_idx [] = []
  ∧ extract_features [] [] = Raise (ValueError "blocks must be 2-D").
Proof. split; reflexivity. Qed.

(** C7. For two label sequences that are permutations of each other, both
    runs fail or both succeed; when they succeed, every index map that
    carries the first label sequence to the second (an injective one
    exists) carries each of the three outputs of the first run to the
    corresponding output of the second run. *)
Theorem permuting_labels_permutes_outputs (data : list PostRecord)
  (target target' : list LabelRecord) :
  target' ≡ₚ target →
  match extract_features data target, extract_features data target' with
  | Ok (X, T, Y), Ok (X', T', Y') =>
      length X' = length X ∧ length T' = length T ∧ length Y' = length Y
      ∧ (∃ f : nat → nat, Inj (=) (=) f ∧ ∀ i, target' !! i = target !! f i)
      ∧ ∀ f : nat → nat, (∀ i, target' !! i = target !! f i) →
          ∀ i, X' !! i = X !! f i ∧ T' !! i = T !! f i ∧ Y' !! i = Y !! f i
  | Raise _, Raise _ => True
  | _, _ => False
  end.
Proof.
  intros Hperm.
  destruct target as [|r0 target0] eqn:Htarget.
  { apply Permutation_nil_r in Hperm as ->.
    by rewrite extract_features_no_labels. }
  rewrite <- Htarget in *.
  assert (target ≠ []) as Hne by (by rewrite Htarget).
  assert (target' ≠ []) as Hne'.
  { intros ->. apply Permutation_nil_l in Hperm. done. }
  clear r0 target0 Htarget.
  assert (target_author target' ≡ₚ target_author target) as Hperm_a.
  { unfold target_author. by apply Permutation_map. }
  destruct (first_absent_split (λ a, a ∈ col_author data)
              (target_author target))
    as [Hall|(l1 & a & l2 & Heq & Hl1 & Ha)].
  - assert (Forall (λ a, a ∈ col_author data) (target_author target'))
      as Hall' by (by rewrite Hperm_a).
    rewrite (extract_features_Ok data target) by done.
    rewrite (extract_features_Ok data target') by done.
    unfold target_author, target_gender. rewrite !length_map.
    pose proof (Permutation_length Hperm) as Hlen.
    split; [done|]. split; [done|]. split; [done|]. split.
    + apply Permutation_inj in Hperm as [_ Hf]. exact Hf.
    + intros f Hf i. rewrite !lookup_map. rewrite Hf. done.
  - rewrite (extract_features_KeyError data target l1 l2 a) by done.
    destruct (first_absent_split (λ a, a ∈ col_author data)
                (target_author target'))
      as [Hall'|(l1' & a' & l2' & Heq' & Hl1' & Ha')].
    + exfalso. apply Ha. rewrite Hperm_a in Hall'.
      rewrite Forall_forall in Hall'. apply Hall'. rewrite Heq. set_solver.
    + by rewrite (extract_features_KeyError data target' l1' l2' a').
Qed.

Lemma permuting_labels_demo :
  match extract_features demo_posts demo_labels,
        extract_features demo_posts [mkLabel "a2" "M"; mkLabel "a1" "F"] with
  | Ok (X, T, Y), Ok (X', T', Y') =>
      length X' = length X ∧ length T' = length T ∧ length Y' = length Y
      ∧ (∃ f : nat → nat, Inj (=) (=) f
           ∧ ∀ i, [mkLabel "a2" "M"; mkLabel "a1" "F"] !! i
                  = demo_labels !! f i)
      ∧ ∀ f : nat → nat,
          (∀ i, [mkLabel "a2" "M"; mkLabel "a1" "F"] !! i
                = demo_labels !! f i) →
          ∀ i, X' !! i = X !! f i ∧ T' !! i = T !! f i ∧ Y' !! i = Y !! f i
  | Raise _, Raise _ => True
  | _, _ => False
  end.
Proof.
  apply (permuting_labels_permutes_outputs demo_posts demo_labels
           [mkLabel "a2" "M"; mkLabel "a1" "F"]).
  unfold demo_labels. apply perm_swap.
Defined.

(** C8. Resolving a community that is absent from the index raises KeyError
    instead of defaulting to a position; with the index built from the
    dataset that is aggregated, every group of posts of the dataset
    resolves, and the loop that fills the membership dictionary completes
    with an entry for every author. *)
Theorem community_lookup_fails_loudly (data : list PostRecord) :
  (∀ (group : list PostRecord) (idx : list (string * nat)) (c : string),
     c ∈ col_subreddit group → c ∉ map fst idx →
     ∃ c', c' ∈ col_subreddit group ∧ c' ∉ map fst idx
           ∧ extract_subreddits group idx = Raise (KeyError c'))
  ∧ (∀ group : list PostRecord, group ⊆ data →
       ∃ v, extract_subreddits group (create_subreddit_idx data) = Ok [v])
  ∧ (∃ d, fill_subreddits_dict (groupby_author data)
            (create_subreddit_idx data) ∅ = Ok d
          ∧ ∀ a, a ∈ col_author data → ∃ v, d !! a = Some [v]).
Proof.
  split; [apply extract_subreddits_Raise|]. split.
  - intros group Hsub.
    destruct (extract_subreddits_Ok data group) as (v & Hv & _);
      [by apply sub_table_communities|].
    by exists v.
  - eexists. split.
    + unfold groupby_author. apply fill_subreddits_dict_Ok.
    + intros a Ha. exists (membership_row data a).
      rewrite insert_all_lookup, decide_True by (by apply group_keys_elem).
      by destruct (membership_block_Ok data a) as (_ & -> & _).
Qed.

(** A community that the index does not know raises; one it knows
    resolves. *)
Lemma community_lookup_demo :
  (∃ c', c' ∈ ["sub9"] ∧ c' ∉ ["sub1"; "sub2"]
         ∧ extract_subreddits [mkPost "a1" "sub9" None]
             (create_subreddit_idx demo_posts) = Raise (KeyError c'))
  ∧ ∃ v, extract_subreddits [mkPost "a2" "sub1" (Some "yo")]
           (create_subreddit_idx demo_posts) = Ok [v].
Proof.
  destruct (community_lookup_fails_loudly demo_posts) as (Hraise & Hok & _).
  split.
  - apply (Hraise [mkPost "a1" "sub9" None]
             (create_subreddit_idx demo_posts) "sub9").
    + simpl. set_solver.
    + vm_compute. set_solver.
  - apply Hok. unfold demo_posts. set_solver.
Defined.

(** C9. A post whose body is missing contributes exactly the three
    characters nan to its author's text, at the position of the post: the
    text is the earlier entries, each followed by a space, then nan, then
    the later entries, each preceded by a space. *)
Theorem missing_body_placeholder (data : list PostRecord) (a : string)
  (g1 g2 : list PostRecord) (r : PostRecord) :
  get_group data a = g1 ++ r :: g2 → body r = None →
  fill_text_dict (groupby_author data) ∅ !! a
  = Some (entries_before g1 +:+ "nan" +:+ entries_after g2)
  ∧ String.length "nan" = 3.
Proof.
  intros Hg Hr. split; [|done].
  rewrite text_dict_lookup.
  rewrite decide_True.
  - unfold text_of_author. rewrite Hg, extract_text_middle, Hr. done.
  - apply col_author_elem. exists r.
    apply get_group_elem. rewrite Hg. set_solver.
Qed.

Lemma missing_body_placeholder_demo :
  fill_text_dict
    (groupby_author
       [mkPost "a1" "sub1" (Some "x"); mkPost "a2" "sub1" (Some "z");
        mkPost "a1" "sub2" None; mkPost "a1" "sub1" (Some "y")]) ∅ !! "a1"
  = Some "x nan y"
  ∧ String.length "nan" = 3.
Proof.
  apply (missing_body_placeholder _ "a1"
           [mkPost "a1" "sub1" (Some "x")] [mkPost "a1" "sub1" (Some "y")]
           (mkPost "a1" "sub2" None)).
  - reflexivity.
  - reflexivity.
Defined.

(** In the demonstration dataset sub2 first occurs at position 1, after one
    distinct community, and is mapped to 1. *)
Lemma community_index_first_appearance_demo :
  ("sub2", 1) ∈ create_subreddit_idx demo_posts.
Proof.
  apply (proj1 (community_index_first_appearance demo_posts)).
  exists 1. split; reflexivity.
Defined.

(** * Further properties of the code *)

(** ** [str.split] and [str.join] *)

Lemma str_app_nil_l (s : string) : "" +:+ s = s.
Proof. reflexivity. Qed.

Lemma str_app_cons (ch : ascii) (s1 s2 : string) :
  String ch s1 +:+ s2 = String ch (s1 +:+ s2).
Proof. reflexivity. Qed.

Lemma str_split_nonempty (sep : ascii) (s : string) : str_split sep s ≠ [].
Proof.
  destruct s as [|ch s]; simpl; [done|].
  destruct (Ascii.eqb ch sep); [done|]. by destruct (str_split sep s).
Qed.

Lemma join_cons (sep x : string) (l : list string) :
  l ≠ [] → join sep (x :: l) = x +:+ sep +:+ join sep l.
Proof. by destruct l. Qed.

Lemma join_str_split (sep : ascii) (s : string) :
  join (String sep "") (str_split sep s) = s.
Proof.
  induction s as [|ch s IH]; [done|]. simpl.
  pose proof (str_split_nonempty sep s) as Hne.
  destruct (Ascii.eqb_spec ch sep) as [->|Hch].
  - rewrite join_cons by done. by rewrite IH.
  - destruct (str_split sep s) as [|piece pieces]; [done|].
    destruct pieces as [|piece' pieces].
    + simpl in *. by rewrite IH.
    + rewrite join_cons by done. rewrite join_cons in IH by done.
      rewrite str_app_cons. by rewrite IH.
Qed.

Lemma str_split_app (sep : ascii) (a b : string) :
  str_split sep (a +:+ String sep b) = str_split sep a ++ str_split sep b.
Proof.
  induction a as [|ch a IH].
  - rewrite str_app_nil_l. simpl. by rewrite Ascii.eqb_refl.
  - rewrite str_app_cons. simpl. rewrite IH.
    destruct (Ascii.eqb ch sep); [done|].
    pose proof (str_split_nonempty sep a) as Hne.
    by destruct (str_split sep a).
Qed.

Lemma str_split_piece (sep : ascii) (s p : string) :
  p ∈ str_split sep s → ∀ s1 s2, p ≠ s1 +:+ String sep s2.
Proof.
  revert p. induction s as [|ch s IH]; intros p Hp s1 s2; simpl in Hp.
  - apply list_elem_of_singleton in Hp as ->. by destruct s1.
  - destruct (Ascii.eqb_spec ch sep) as [->|Hch].
    + apply elem_of_cons in Hp as [->|Hp]; [by destruct s1|by apply IH].
    + pose proof (str_split_nonempty sep s) as Hne.
      destruct (str_split sep s) as [|piece pieces]; [done|].
      apply elem_of_cons in Hp as [->|Hp].
      * destruct s1 as [|ch1 s1].
        -- rewrite str_app_nil_l. intros [= -> _]. done.
        -- rewrite str_app_cons. intros [= _ Hpiece].
           by apply (IH piece (list_elem_of_here _ _) s1 s2).
      * apply IH. by right.
Qed.

Lemma join_snoc (sep x : string) (l : list string) :
  l ≠ [] → join sep (l ++ [x]) = join sep l +:+ sep +:+ x.
Proof.
  induction l as [|y l IH]; [done|]. intros _.
  destruct l as [|z l]; [done|].
  change ((y :: z :: l) ++ [x]) with (y :: ((z :: l) ++ [x])).
  rewrite join_cons by done. rewrite IH by done.
  rewrite (join_cons sep y (z :: l)) by done.
  by rewrite !str_app_assoc.
Qed.

(** The piece after the last separator, against the whole string. *)
Lemma last_piece_suffix (sep : ascii) (s : string) :
  s = last_piece (str_split sep s)
  ∨ ∃ stem, s = stem +:+ String sep (last_piece (str_split sep s)).
Proof.
  pose proof (join_str_split sep s) as Hjoin.
  pose proof (str_split_nonempty sep s) as Hne.
  destruct (str_split sep s) as [|p ps] using rev_ind; [done|].
  unfold last_piece. rewrite last_snoc. simpl.
  destruct ps as [|q qs].
  - left. by rewrite <- Hjoin.
  - right. exists (join (String sep "") (q :: qs)).
    rewrite <- Hjoin. rewrite join_snoc by done. done.
Qed.

Lemma last_piece_no_sep (sep : ascii) (s : string) :
  ∀ s1 s2, last_piece (str_split sep s) ≠ s1 +:+ String sep s2.
Proof.
  apply (str_split_piece sep s).
  pose proof (str_split_nonempty sep s) as Hne.
  destruct (str_split sep s) as [|p ps] using rev_ind; [done|].
  unfold last_piece. rewrite last_snoc. simpl. set_solver.
Qed.

Lemma last_piece_csv (filename : string) :
  last_piece (str_split "." filename) = "csv" ↔ csv_name filename.
Proof.
  split.
  - intros Hext. destruct (last_piece_suffix "." filename) as [H|[stem H]].
    + left. congruence.
    + right. exists stem. rewrite Hext in H. exact H.
  - intros [->|[stem ->]]; [done|].
    change (stem +:+ ".csv") with (stem +:+ String "." "csv").
    rewrite str_split_app. simpl.
    unfold last_piece. by rewrite last_snoc.
Qed.

(** ** Loading *)

Lemma load_csv_valid {T E : Type} (read_csv : string → T + E)
  (filename : string) :
  csv_name filename →
  load_csv read_csv filename
  = match read_csv ("data/" +:+ filename) with
    | inl df => Frame df
    | inr e => ReadError e
    end.
Proof.
  intros Hcsv. apply last_piece_csv in Hcsv. unfold load_csv.
  by rewrite Hcsv.
Qed.

Lemma load_csv_invalid {T E : Type} (read_csv : string → T + E)
  (filename : string) :
  ¬ csv_name filename →
  load_csv read_csv filename
  = Invalid (ValueError ("Invalid file extension: "
                         +:+ last_piece (str_split "." filename)
                         +:+ ". Must be a CSV file.")).
Proof.
  intros Hno. unfold load_csv.
  destruct (String.eqb_spec (last_piece (str_split "." filename)) "csv")
    as [Hext|_]; [|done].
  by apply last_piece_csv in Hext.
Qed.

Lemma csv_name_dec (filename : string) :
  csv_name filename ∨ ¬ csv_name filename.
Proof.
  destruct (String.eqb_spec (last_piece (str_split "." filename)) "csv")
    as [Hext|Hext].
  - left. by apply last_piece_csv.
  - right. intros Hcsv. by apply last_piece_csv in Hcsv.
Qed.

(** X1. [load_csv] accepts exactly the bare name csv and the names ending in
    .csv (lower case); for an accepted name its outcome is that of
    [pd.read_csv] on the path data/ followed by the name. *)
Theorem load_csv_accepts {T E : Type} (read_csv : string → T + E)
  (filename : string) :
  (csv_name filename ↔ ∀ e, load_csv read_csv filename ≠ Invalid e)
  ∧ (csv_name filename →
     load_csv read_csv filename
     = match read_csv ("data/" +:+ filename) with
       | inl df => Frame df
       | inr e => ReadError e
       end).
Proof.
  unfold load_csv.
  destruct (String.eqb_spec (last_piece (str_split "." filename)) "csv")
    as [Hext|Hext]; simpl.
  - apply last_piece_csv in Hext. split; [|done]. split; [|done].
    intros _ e. by destruct (read_csv _).
  - split.
    + split.
      * intros Hcsv. by apply last_piece_csv in Hcsv.
      * intros Hno. exfalso. by eapply Hno.
    + intros Hcsv. by apply last_piece_csv in Hcsv.
Qed.

Lemma load_csv_accepts_demo :
  load_csv (λ path, if String.eqb path "data/archive.v2.csv"
                    then inl demo_posts else inr "missing")
    "archive.v2.csv"
  = Frame demo_posts.
Proof.
  rewrite (proj2 (load_csv_accepts _ "archive.v2.csv")).
  - reflexivity.
  - right. exists "archive.v2". reflexivity.
Defined.

(** X2. For any other name [load_csv] raises ValueError without consulting
    [pd.read_csv]; the extension quoted in the message is the part of the
    name after its last dot (the whole name when it has no dot), and
    contains no dot itself. *)
Theorem load_csv_rejects {T E : Type} (read_csv : string → T + E)
  (filename : string) :
  ¬ csv_name filename →
  ∃ ext,
    load_csv read_csv filename
    = Invalid (ValueError ("Invalid file extension: " +:+ ext
                           +:+ ". Must be a CSV file."))
    ∧ ext ≠ "csv"
    ∧ (filename = ext ∨ ∃ stem, filename = stem +:+ "." +:+ ext)
    ∧ (∀ s1 s2, ext ≠ s1 +:+ "." +:+ s2)
    ∧ ∀ read_csv' : string → T + E,
        load_csv read_csv' filename = load_csv read_csv filename.
Proof.
  intros Hno. exists (last_piece (str_split "." filename)).
  assert (last_piece (str_split "." filename) ≠ "csv") as Hext.
  { intros Hext. by apply last_piece_csv in Hext. }
  unfold load_csv.
  destruct (String.eqb_spec (last_piece (str_split "." filename)) "csv")
    as [?|_]; [done|]. simpl.
  split; [done|]. split; [done|]. split; [apply last_piece_suffix|].
  split; [apply last_piece_no_sep|done].
Qed.

Lemma load_csv_rejects_demo :
  ∃ ext,
    load_csv (λ _ : string, @inl (list PostRecord) string demo_posts)
      "posts.csv.bak"
    = Invalid (ValueError ("Invalid file extension: " +:+ ext
                           +:+ ". Must be a CSV file."))
    ∧ ext ≠ "csv"
    ∧ ("posts.csv.bak" = ext ∨ ∃ stem, "posts.csv.bak" = stem +:+ "." +:+ ext)
    ∧ (∀ s1 s2, ext ≠ s1 +:+ "." +:+ s2)
    ∧ ∀ read_csv' : string → list PostRecord + string,
        load_csv read_csv' "posts.csv.bak"
        = load_csv (λ _ : string, @inl (list PostRecord) string demo_posts)
            "posts.csv.bak".
Proof.
  apply (load_csv_rejects _ "posts.csv.bak").
  intros Hcsv. apply last_piece_csv in Hcsv. vm_compute in Hcsv. discriminate.
Defined.

(** X3. [load_data] returns the two tables exactly when both names are
    accepted and both reads succeed; when the first name is not accepted
    the error is the one [load_csv] gives for the first name, whatever the
    second name is. *)
Theorem load_data_outcome {T E : Type} (read_csv : string → T + E)
  (train_data train_target : string) :
  (∀ data target,
     load_data read_csv train_data train_target = Frame (data, target)
     ↔ csv_name train_data ∧ csv_name train_target
       ∧ read_csv ("data/" +:+ train_data) = inl data
       ∧ read_csv ("data/" +:+ train_target) = inl target)
  ∧ (¬ csv_name train_data →
     ∃ msg, load_csv read_csv train_data = Invalid (ValueError msg)
            ∧ ∀ other, load_data read_csv train_data other
                       = Invalid (ValueError msg)).
Proof.
  split.
  - intros data target. unfold load_data. split.
    + intros Hrun.
      destruct (csv_name_dec train_data) as [Hc1|Hc1];
        [|by rewrite (load_csv_invalid read_csv _ Hc1) in Hrun].
      rewrite (load_csv_valid read_csv _ Hc1) in Hrun.
      destruct (read_csv ("data/" +:+ train_data)) as [d|e]; [|done].
      destruct (csv_name_dec train_target) as [Hc2|Hc2];
        [|by rewrite (load_csv_invalid read_csv _ Hc2) in Hrun].
      rewrite (load_csv_valid read_csv _ Hc2) in Hrun.
      destruct (read_csv ("data/" +:+ train_target)) as [t|e]; [|done].
      by injection Hrun as -> ->.
    + intros (Hc1 & Hc2 & Hr1 & Hr2).
      rewrite (load_csv_valid read_csv _ Hc1), (load_csv_valid read_csv _ Hc2).
      by rewrite Hr1, Hr2.
  - intros Hno. eexists. split; [by apply load_csv_invalid|].
    intros other. unfold load_data.
    by rewrite (load_csv_invalid read_csv _ Hno).
Qed.

Lemma load_data_outcome_demo :
  ∃ msg,
    load_csv (λ _ : string, @inl (list PostRecord) string demo_posts)
      "train_data.tsv"
    = Invalid (ValueError msg)
    ∧ ∀ other,
        load_data (λ _ : string, @inl (list PostRecord) string demo_posts)
          "train_data.tsv" other
        = Invalid (ValueError msg).
Proof.
  apply (proj2 (load_data_outcome _ "train_data.tsv" "train_target.csv")).
  intros Hcsv. apply last_piece_csv in Hcsv. vm_compute in Hcsv. discriminate.
Defined.

(** ** The index under appended posts *)

Lemma unique_from_known (seen : gset string) (l : list string) :
  Forall (λ c, c ∈ seen) l → unique_from seen l = [].
Proof.
  induction 1 as [|c l Hc Hall IH]; simpl; [done|].
  by rewrite decide_True.
Qed.

Lemma col_subreddit_app (data more : list PostRecord) :
  col_subreddit (data ++ more) = col_subreddit data ++ col_subreddit more.
Proof. apply map_app. Qed.

Lemma idx_app (data more : list PostRecord) :
  let fresh := unique_from (list_to_set (col_subreddit data) ∪ ∅)
                 (col_subreddit more) in
  create_subreddit_idx (data ++ more)
  = create_subreddit_idx data
    ++ zip fresh (seq (length (create_subreddit_idx data)) (length fresh)).
Proof.
  intros fresh. rewrite idx_length.
  unfold create_subreddit_idx, Series, arange.
  rewrite col_subreddit_app. unfold unique. rewrite unique_from_app.
  fold fresh. rewrite length_app, seq_app. simpl.
  rewrite zip_with_app by (by rewrite length_seq). done.
Qed.

Lemma idx_app_known (data more : list PostRecord) :
  Forall (λ c, c ∈ col_subreddit data) (col_subreddit more) →
  create_subreddit_idx (data ++ more) = create_subreddit_idx data.
Proof.
  intros Hknown. rewrite idx_app. rewrite unique_from_known.
  - simpl. apply app_nil_r.
  - eapply Forall_impl; [exact Hknown|]. intros c Hc. set_solver.
Qed.

(** X4. Appending posts never renumbers a community: the index of the longer
    dataset starts with the index of the shorter one, every community keeps
    its position, and the index does not change at all when the appended
    posts bring no new community. *)
Theorem community_index_append (data more : list PostRecord) :
  create_subreddit_idx data `prefix_of` create_subreddit_idx (data ++ more)
  ∧ (∀ c j, (c, j) ∈ create_subreddit_idx data →
            (c, j) ∈ create_subreddit_idx (data ++ more))
  ∧ (Forall (λ c, c ∈ col_subreddit data) (col_subreddit more) →
     create_subreddit_idx (data ++ more) = create_subreddit_idx data).
Proof.
  split; [|split].
  - rewrite idx_app. by eexists.
  - intros c j Hcj. rewrite idx_app. apply elem_of_app. by left.
  - apply idx_app_known.
Qed.

Lemma community_index_append_demo :
  create_subreddit_idx (demo_posts ++ [mkPost "a3" "sub2" None])
  = create_subreddit_idx demo_posts.
Proof.
  apply (proj2 (proj2 (community_index_append demo_posts
                         [mkPost "a3" "sub2" None]))).
  repeat constructor.
Defined.

(** ** The keys of the dictionaries *)




(** ** The outcomes of [extract_features] *)

Lemma extract_features_Ok_inv (data : list PostRecord)
  (target : list LabelRecord) (X : list (list Z)) (T Y : list string) :
  extract_features data target = Ok (X, T, Y) →
  target ≠ []
  ∧ Forall (λ a, a ∈ col_author data) (target_author target)
  ∧ X = map (membership_row data) (target_author target)
  ∧ T = map (text_of_author data) (target_author target)
  ∧ Y = target_gender target.
Proof.
  intros Hrun.
  assert (target ≠ [] ∧ Forall (λ a, a ∈ col_author data)
                          (target_author target)) as [Hne Hall].
  { destruct target as [|r0 target0] eqn:Htarget.
    { by rewrite extract_features_no_labels in Hrun. }
    split; [done|]. rewrite <- Htarget in *.
    destruct (first_absent_split (λ a, a ∈ col_author data)
                (target_author target))
      as [Hall|(l1 & a & l2 & Heq & Hl1 & Ha)]; [done|].
    by rewrite (extract_features_KeyError data target l1 l2 a) in Hrun. }
  rewrite (extract_features_Ok data target) in Hrun by done.
  by injection Hrun as <- <- <-.
Qed.

(** X6. [extract_features] returns exactly when the label table is not empty
    and every labelled author has a post; it raises ValueError exactly when
    the label table is empty, a KeyError only for a labelled author without
    posts, and never an IndexError. *)
Theorem extract_features_outcome (data : list PostRecord)
  (target : list LabelRecord) :
  ((∃ out, extract_features data target = Ok out)
   ↔ target ≠ [] ∧ ∀ r, r ∈ target → label_author r ∈ col_author data)
  ∧ (∀ msg, extract_features data target = Raise (ValueError msg)
            ↔ target = [] ∧ msg = "blocks must be 2-D")
  ∧ (∀ a, extract_features data target = Raise (KeyError a) →
          a ∈ target_author target ∧ a ∉ col_author data)
  ∧ (∀ j, extract_features data target ≠ Raise (IndexError j)).
Proof.
  destruct target as [|r0 target0] eqn:Htarget.
  { rewrite extract_features_no_labels. split; [|split; [|split]].
    - split; [by intros [? ?]|by intros [? _]].
    - intros msg. split; [by intros [= <-]|by intros [_ ->]].
    - done.
    - done. }
  rewrite <- Htarget. assert (target ≠ []) as Hne by (by rewrite Htarget).
  clear r0 target0 Htarget.
  destruct (first_absent_split (λ a, a ∈ col_author data)
              (target_author target))
    as [Hall|(l1 & a & l2 & Heq & Hl1 & Ha)].
  - rewrite (extract_features_Ok data target) by done.
    split; [|split; [|split]]; try done.
    + split; [|by eexists]. intros _. split; [done|].
      by apply target_author_present.
    + intros msg. split; [done|]. by intros [? _].
  - rewrite (extract_features_KeyError data target l1 l2 a) by done.
    split; [|split; [|split]]; try done.
    + split; [by intros [? ?]|]. intros [_ Hall]. exfalso. apply Ha.
      apply target_author_present in Hall. rewrite Forall_forall in Hall.
      apply Hall. rewrite Heq. set_solver.
    + intros msg. split; [done|]. by intros [? _].
    + intros a' [= <-]. split; [rewrite Heq; set_solver|done].
Qed.

Lemma extract_features_outcome_demo :
  ∃ out, extract_features demo_posts demo_labels = Ok out.
Proof.
  apply (proj1 (extract_features_outcome demo_posts demo_labels)).
  split; [discriminate|].
  intros r Hr. unfold demo_labels in Hr.
  apply elem_of_cons in Hr as [->|Hr]; [vm_compute; set_solver|].
  apply elem_of_cons in Hr as [->|Hr]; [vm_compute; set_solver|].
  by apply elem_of_nil in Hr.
Defined.

(** ** Rows as indicators *)

Lemma membership_vector_indicator (data : list PostRecord)
  (communities : list string) (v : list Z) :
  is_membership_vector (create_subreddit_idx data) communities v →
  v = indicator_row communities (unique (col_subreddit data)).
Proof.
  intros [Hlen Hv]. rewrite idx_length in Hlen.
  apply list_eq. intros j. unfold indicator_row. rewrite lookup_map.
  destruct (unique (col_subreddit data) !! j) as [c|] eqn:Hc; simpl.
  - assert (j < length (create_subreddit_idx data)) as Hj.
    { rewrite idx_length. by apply lookup_lt_Some in Hc. }
    destruct (Hv j Hj) as [Hone Hzero].
    destruct (decide (c ∈ communities)) as [Hin|Hout].
    + apply Hone. exists c. split; [done|]. by apply idx_elem.
    + apply Hzero. intros (c' & Hc' & Hcj). apply idx_elem in Hcj.
      congruence.
  - apply lookup_ge_None. apply lookup_ge_None in Hc. lia.
Qed.

Lemma membership_row_indicator (data : list PostRecord) (a : string) :
  membership_row data a
  = indicator_row (col_subreddit (get_group data a))
      (unique (col_subreddit data)).
Proof.
  apply membership_vector_indicator.
  by destruct (membership_block_Ok data a) as (_ & _ & ?).
Qed.

Lemma indicator_row_binary (communities columns : list string) :
  Forall (λ x, x = 0%Z ∨ x = 1%Z) (indicator_row communities columns).
Proof.
  unfold indicator_row. induction columns as [|c columns IH]; simpl.
  - constructor.
  - constructor; [|done]. destruct (decide (c ∈ communities)); auto.
Qed.

Lemma count_ones_indicator (communities columns : list string) :
  NoDup columns → (∀ c, c ∈ communities → c ∈ columns) →
  count_ones (indicator_row communities columns)
  = distinct_count communities.
Proof.
  intros Hnd Hsub.
  assert (count_ones (indicator_row communities columns)
          = length (filter (λ c, c ∈ communities) columns)) as ->.
  { unfold count_ones, indicator_row. clear Hnd Hsub.
    induction columns as [|c columns IH]; simpl; [done|].
    destruct (decide (c ∈ communities)) as [Hin|Hout].
    - rewrite filter_cons_True by done.
      rewrite (filter_cons_True (λ c, c ∈ communities)) by done.
      simpl. by rewrite IH.
    - rewrite filter_cons_False by done.
      rewrite (filter_cons_False (λ c, c ∈ communities)) by done. done. }
  unfold distinct_count.
  rewrite <- (size_list_to_set (C := gset string)) by by apply NoDup_filter.
  f_equal. apply set_eq. intros c.
  rewrite !elem_of_list_to_set, list_elem_of_filter. naive_solver.
Qed.

(** X7. On success the matrix is given in closed form: row i is the 0/1
    indicator of the communities of the i-th labelled author over the
    distinct communities of the post table in first-appearance order; so
    every row has as many columns as the table has distinct communities and
    holds only 0 and 1. *)
Theorem matrix_rows_indicator (data : list PostRecord)
  (target : list LabelRecord) (X : list (list Z)) (T Y : list string) :
  extract_features data target = Ok (X, T, Y) →
  X = map (λ r, indicator_row
                  (col_subreddit (get_group data (label_author r)))
                  (unique (col_subreddit data))) target
  ∧ Forall (λ row, length row = distinct_count (col_subreddit data)
                   ∧ Forall (λ x, x = 0%Z ∨ x = 1%Z) row) X.
Proof.
  intros Hrun.
  apply extract_features_Ok_inv in Hrun as (_ & _ & -> & _ & _).
  assert (map (membership_row data) (target_author target)
          = map (λ r, indicator_row
                        (col_subreddit (get_group data (label_author r)))
                        (unique (col_subreddit data))) target) as ->.
  { unfold target_author. rewrite map_map. apply map_ext.
    intros r. apply membership_row_indicator. }
  split; [done|]. apply Forall_forall. intros row Hrow.
  apply list_elem_of_In, in_map_iff in Hrow as (r & <- & _). split.
  - unfold indicator_row. rewrite length_map. apply unique_length.
  - apply indicator_row_binary.
Qed.

Lemma matrix_rows_indicator_demo :
  [[1; 1]; [1; 0]]%Z
  = map (λ r, indicator_row
                (col_subreddit (get_group demo_posts (label_author r)))
                (unique (col_subreddit demo_posts))) demo_labels
  ∧ Forall (λ row, length row = distinct_count (col_subreddit demo_posts)
                   ∧ Forall (λ x, x = 0%Z ∨ x = 1%Z) row)
      [[1; 1]; [1; 0]]%Z.
Proof.
  apply (matrix_rows_indicator demo_posts demo_labels _
           ["hi there"; "yo"] ["F"; "M"]).
  vm_compute. reflexivity.
Defined.

(** X8. The number of ones in the row of a labelled author is the number of
    distinct communities the author posted in, which is at least one: the
    matrix has no all-zero row. *)
Theorem matrix_row_counts (data : list PostRecord)
  (target : list LabelRecord) (X : list (list Z)) (T Y : list string)
  (i : nat) (r : LabelRecord) :
  extract_features data target = Ok (X, T, Y) →
  target !! i = Some r →
  ∃ row, X !! i = Some row
         ∧ count_ones row
           = distinct_count (col_subreddit (get_group data (label_author r)))
         ∧ (1 ≤ count_ones row)%nat.
Proof.
  intros Hrun Hi.
  apply extract_features_Ok_inv in Hrun as (_ & Hall & -> & _ & _).
  assert (label_author r ∈ col_author data) as Ha.
  { apply (proj2 (target_author_present data target) Hall).
    apply list_elem_of_lookup. eauto. }
  exists (membership_row data (label_author r)).
  unfold target_author. rewrite !lookup_map, Hi. split; [done|].
  rewrite membership_row_indicator.
  rewrite count_ones_indicator.
  - split; [done|].
    apply col_author_elem in Ha as (p & Hp & Hpa).
    unfold distinct_count.
    assert (subreddit p ∈ (list_to_set
              (col_subreddit (get_group data (label_author r)))
              : gset string)) as Hin.
    { apply elem_of_list_to_set, col_subreddit_elem. exists p.
      split; [|done]. by apply get_group_elem. }
    destruct (decide (size (list_to_set
                (col_subreddit (get_group data (label_author r)))
                : gset string) = 0)) as [Hz|Hz]; [|lia].
    apply size_empty_inv in Hz. set_solver.
  - apply unique_NoDup.
  - intros c Hc. apply unique_elem.
    pose proof (sub_table_communities data _
                  (get_group_sub data (label_author r))) as Hs.
    rewrite Forall_forall in Hs. by apply Hs.
Qed.

Lemma matrix_row_counts_demo :
  ∃ row, [[1; 1]; [1; 0]]%Z !! 1 = Some row
         ∧ count_ones row
           = distinct_count (col_subreddit (get_group demo_posts "a2"))
         ∧ (1 ≤ count_ones row)%nat.
Proof.
  apply (matrix_row_counts demo_posts demo_labels _
           ["hi there"; "yo"] ["F"; "M"] 1 (mkLabel "a2" "M")).
  - vm_compute. reflexivity.
  - reflexivity.
Defined.

(** ** The length of a text *)

Lemma str_length_app (s1 s2 : string) :
  String.length (s1 +:+ s2) = String.length s1 + String.length s2.
Proof.
  induction s1 as [|ch s1 IH]; [done|].
  rewrite str_app_cons. simpl. by rewrite IH.
Qed.

Lemma extract_text_length (g : list PostRecord) :
  String.length (extract_text g) = entries_length g + (length g - 1).
Proof.
  induction g as [|r g IH]; [done|].
  destruct g as [|r' g].
  - rewrite extract_text_single. simpl. lia.
  - rewrite extract_text_cons by done.
    rewrite !str_length_app, IH. simpl. lia.
Qed.

(** X9. The text of an author is as long as its entries together (a missing
    body counting as the three characters of nan) plus one separator between
    consecutive entries: nothing is trimmed, dropped or padded. *)
Theorem author_text_length (data : list PostRecord) (a : string) :
  a ∈ col_author data →
  ∃ t, fill_text_dict (groupby_author data) ∅ !! a = Some t
       ∧ String.length t
         = entries_length (get_group data a) + (length (get_group data a) - 1).
Proof.
  intros Ha. exists (text_of_author data a).
  rewrite text_dict_lookup, decide_True by done.
  split; [done|]. apply extract_text_length.
Qed.

Lemma author_text_length_demo :
  ∃ t, fill_text_dict (groupby_author demo_posts) ∅ !! "a1" = Some t
       ∧ String.length t
         = entries_length (get_group demo_posts "a1")
           + (length (get_group demo_posts "a1") - 1).
Proof.
  apply (author_text_length demo_posts "a1").
  vm_compute. set_solver.
Defined.

(** ** [extract_subreddits] on an index that is not dense *)

Lemma set_all_Raise (row : list Z) (js : list nat) :
  Exists (λ j, length row <= j) js →
  ∃ j, length row <= j ∧ j ∈ js ∧ set_all [row] js = Raise (IndexError j).
Proof.
  revert row. induction js as [|j js IH]; intros row Hex.
  - by apply Exists_nil in Hex.
  - simpl. destruct (decide (j < length row)) as [Hlt|Hge].
    + apply Exists_cons in Hex as [Hj|Hex]; [lia|]. simpl.
      destruct (IH (<[j := 1%Z]> row)) as (j' & Hj' & Hin & Hrun).
      { by rewrite length_insert. }
      rewrite length_insert in Hj'.
      exists j'. split; [done|]. split; [set_solver|done].
    + exists j. split; [lia|]. split; [set_solver|done].
Qed.

Lemma keys_resolve (idx : list (string * nat)) (labels : list string) :
  Forall (λ c, c ∈ map fst idx) labels →
  ∃ js, Forall2 (λ c j, (c, j) ∈ idx) labels js.
Proof.
  induction 1 as [|c labels Hc Hall [js IH]].
  - exists []. constructor.
  - apply list_elem_of_In, in_map_iff in Hc as ([k j] & Hk & Hin).
    simpl in Hk. subst k. exists (j :: js).
    constructor; [by apply list_elem_of_In|done].
Qed.

(** X10. With an index whose labels are pairwise different and cover the
    group, but which sends one of the group's communities to a position at
    or beyond its own length, [extract_subreddits] raises IndexError for
    such a position: it neither widens nor truncates the vector. *)
Theorem extract_subreddits_out_of_range (group : list PostRecord)
  (idx : list (string * nat)) (c : string) (j : nat) :
  NoDup (map fst idx) →
  Forall (λ c, c ∈ map fst idx) (col_subreddit group) →
  c ∈ col_subreddit group → (c, j) ∈ idx → length idx <= j →
  ∃ j', length idx <= j'
        ∧ (∃ c', c' ∈ col_subreddit group ∧ (c', j') ∈ idx)
        ∧ extract_subreddits group idx = Raise (IndexError j').
Proof.
  intros Hnd Hcover Hc Hcj Hj.
  destruct (keys_resolve idx _ Hcover) as [js Hjs].
  assert (j ∈ js) as Hin.
  { apply list_elem_of_lookup in Hc as [i Hi].
    destruct (Forall2_lookup_l _ _ _ _ _ Hjs Hi) as (j' & Hj' & Hcj').
    assert (j' = j) as ->.
    { pose proof (filter_key_NoDup idx c j Hnd Hcj) as H1.
      pose proof (filter_key_NoDup idx c j' Hnd Hcj') as H2.
      congruence. }
    apply list_elem_of_lookup. eauto. }
  destruct (set_all_Raise (replicate (length idx) 0%Z) js)
    as (j' & Hj' & Hin' & Hrun).
  { apply Exists_exists. exists j. split; [done|].
    by rewrite length_replicate. }
  rewrite length_replicate in Hj'.
  exists j'. split; [done|]. split.
  - apply list_elem_of_lookup in Hin' as [i Hi].
    destruct (Forall2_lookup_r _ _ _ _ _ Hjs Hi) as (c' & Hc' & Hcj').
    exists c'. split; [|done]. apply list_elem_of_lookup. eauto.
  - unfold extract_subreddits. rewrite (loc_Ok idx _ js) by done. exact Hrun.
Qed.

Lemma extract_subreddits_out_of_range_demo :
  ∃ j', 2 <= j'
        ∧ (∃ c', c' ∈ ["sub1"; "sub7"] ∧ (c', j') ∈ [("sub1", 0); ("sub7", 5)])
        ∧ extract_subreddits
            [mkPost "a1" "sub1" None; mkPost "a1" "sub7" None]
            [("sub1", 0); ("sub7", 5)]
          = Raise (IndexError j').
Proof.
  apply (extract_subreddits_out_of_range
           [mkPost "a1" "sub1" None; mkPost "a1" "sub7" None]
           [("sub1", 0); ("sub7", 5)] "sub7" 5).
  - simpl. repeat constructor; set_solver.
  - simpl. repeat constructor.
  - simpl. set_solver.
  - set_solver.
  - simpl. lia.
Defined.

(** ** What the outputs depend on *)

Lemma membership_row_ext (data data' : list PostRecord) (a : string) :
  create_subreddit_idx data = create_subreddit_idx data' →
  get_group data a = get_group data' a →
  membership_row data a = membership_row data' a.
Proof.
  intros Hidx Hg. unfold membership_row, membership_block.
  by rewrite Hidx, Hg.
Qed.

Lemma col_author_ext (data data' : list PostRecord) (a : string) :
  get_group data a = get_group data' a →
  a ∈ col_author data ↔ a ∈ col_author data'.
Proof.
  intros Hg. split; intros Ha;
    destruct (decide (a ∈ col_author data)) as [H|H];
    destruct (decide (a ∈ col_author data')) as [H'|H']; try done.
  - apply get_group_nil in H'. rewrite <- Hg in H'.
    by apply get_group_nil in H'.
  - apply get_group_nil in H. rewrite Hg in H. by apply get_group_nil in H.
Qed.

Lemma extract_features_ext (data data' : list PostRecord)
  (target : list LabelRecord) :
  create_subreddit_idx data = create_subreddit_idx data' →
  (∀ a, a ∈ target_author target → get_group data a = get_group data' a) →
  extract_features data target = extract_features data' target.
Proof.
  intros Hidx Hg.
  destruct target as [|r0 target0] eqn:Htarget.
  { by rewrite !extract_features_no_labels. }
  rewrite <- Htarget in *. assert (target ≠ []) as Hne by (by rewrite Htarget).
  clear r0 target0 Htarget.
  destruct (first_absent_split (λ a, a ∈ col_author data)
              (target_author target))
    as [Hall|(l1 & a & l2 & Heq & Hl1 & Ha)].
  - assert (Forall (λ a, a ∈ col_author data') (target_author target))
      as Hall'.
    { rewrite Forall_forall in *. intros a Ha.
      apply (col_author_ext data data' a); auto. }
    rewrite (extract_features_Ok data target) by done.
    rewrite (extract_features_Ok data' target) by done.
    do 3 f_equal.
    + apply map_ext_in. intros a Ha. apply membership_row_ext; [done|].
      apply Hg. by apply list_elem_of_In.
    + apply map_ext_in. intros a Ha. unfold text_of_author.
      rewrite Hg; [done|]. by apply list_elem_of_In.
  - rewrite (extract_features_KeyError data target l1 l2 a) by done.
    rewrite (extract_features_KeyError data' target l1 l2 a); [done|done| |].
    + rewrite Forall_forall in *. intros b Hb.
      apply (col_author_ext data data' b); [|by apply Hl1].
      apply Hg. rewrite Heq. set_solver.
    + rewrite <- (col_author_ext data data' a); [done|].
      apply Hg. rewrite Heq. set_solver.
Qed.

Lemma get_group_app (data more : list PostRecord) (a : string) :
  get_group (data ++ more) a = get_group data a ++ get_group more a.
Proof. apply filter_app. Qed.

(** X11. The outcome of [extract_features] depends on the post table only
    through the community index and the groups of the labelled authors; in
    particular, appending posts of authors that are not labelled, in
    communities the table already has, changes neither the outputs nor the
    exception. *)
Theorem unlabelled_posts_ignored (data : list PostRecord)
  (target : list LabelRecord) :
  (∀ data', create_subreddit_idx data = create_subreddit_idx data' →
            (∀ a, a ∈ target_author target →
                  get_group data a = get_group data' a) →
            extract_features data target = extract_features data' target)
  ∧ (∀ more, Forall (λ c, c ∈ col_subreddit data) (col_subreddit more) →
             (∀ p, p ∈ more → author p ∉ target_author target) →
             extract_features (data ++ more) target
             = extract_features data target).
Proof.
  split.
  - intros data'. apply extract_features_ext.
  - intros more Hknown Hun. apply extract_features_ext.
    + by apply idx_app_known.
    + intros a Ha. rewrite get_group_app.
      assert (get_group more a = []) as ->; [|apply app_nil_r].
      apply get_group_nil. intros Hin.
      apply col_author_elem in Hin as (p & Hp & <-). by apply (Hun p).
Qed.

Lemma unlabelled_posts_ignored_demo :
  extract_features (demo_posts ++ [mkPost "a3" "sub2" None]) demo_labels
  = extract_features demo_posts demo_labels.
Proof.
  apply (proj2 (unlabelled_posts_ignored demo_posts demo_labels)).
  - repeat constructor.
  - intros p Hp. apply list_elem_of_singleton in Hp as ->.
    vm_compute. set_solver.
Defined.

(** ** The groups of the groupby *)








(** ** [extract_subreddits] on any index with distinct labels *)

(** X14. For any index with pairwise different labels that covers the
    communities of the group and sends them to positions below its length,
    [extract_subreddits] returns one row, as long as the index, with a 1
    exactly at the positions of the group's communities; the index need not
    be dense nor injective. *)
Theorem extract_subreddits_general (group : list PostRecord)
  (idx : list (string * nat)) :
  NoDup (map fst idx) →
  Forall (λ c, c ∈ map fst idx) (col_subreddit group) →
  (∀ c j, c ∈ col_subreddit group → (c, j) ∈ idx → j < length idx) →
  ∃ v, extract_subreddits group idx = Ok [v]
       ∧ is_membership_vector idx (col_subreddit group) v.
Proof.
  intros Hnd Hcover Hrange.
  destruct (keys_resolve idx _ Hcover) as [js Hjs].
  assert (∀ j, j ∈ js ↔ ∃ c, c ∈ col_subreddit group ∧ (c, j) ∈ idx) as Hin.
  { intros j. split.
    - intros Hj. apply list_elem_of_lookup in Hj as [i Hi].
      destruct (Forall2_lookup_r _ _ _ _ _ Hjs Hi) as (c & Hc & Hcj).
      exists c. split; [|done]. apply list_elem_of_lookup. eauto.
    - intros (c & Hc & Hcj). apply list_elem_of_lookup in Hc as [i Hi].
      destruct (Forall2_lookup_l _ _ _ _ _ Hjs Hi) as (j' & Hj' & Hcj').
      assert (j' = j) as ->.
      { pose proof (filter_key_NoDup idx c j Hnd Hcj) as H1.
        pose proof (filter_key_NoDup idx c j' Hnd Hcj') as H2.
        congruence. }
      apply list_elem_of_lookup. eauto. }
  exists (mark_all (replicate (length idx) 0%Z) js). split.
  - unfold extract_subreddits. rewrite (loc_Ok idx _ js) by done. simpl.
    unfold dok_array_1. apply set_all_Ok. rewrite length_replicate.
    apply Forall_forall. intros j Hj. apply Hin in Hj as (c & Hc & Hcj).
    by apply (Hrange c).
  - split; [by rewrite mark_all_length, length_replicate|].
    intros j Hj. split.
    + intros Hex. apply mark_all_hit; [by apply Hin|].
      by rewrite length_replicate.
    + intros Hno. rewrite mark_all_miss; [by apply lookup_replicate_2|].
      intros Hj'. by apply Hno, Hin.
Qed.

Lemma extract_subreddits_general_demo :
  ∃ v, extract_subreddits
         [mkPost "a1" "sub1" None; mkPost "a1" "sub7" None]
         [("sub1", 1); ("sub7", 1); ("sub9", 0)]
       = Ok [v]
       ∧ is_membership_vector [("sub1", 1); ("sub7", 1); ("sub9", 0)]
           ["sub1"; "sub7"] v.
Proof.
  apply (extract_subreddits_general
           [mkPost "a1" "sub1" None; mkPost "a1" "sub7" None]
           [("sub1", 1); ("sub7", 1); ("sub9", 0)]).
  - simpl. repeat constructor; set_solver.
  - simpl. repeat constructor.
  - simpl. intros c j _ Hcj.
    repeat (apply elem_of_cons in Hcj as [[= -> ->]|Hcj]; [lia|]).
    by apply elem_of_nil in Hcj.
Defined.

(** ** Appending posts of an author *)

Lemma extract_text_app (g1 g2 : list PostRecord) :
  g1 ≠ [] → g2 ≠ [] →
  extract_text (g1 ++ g2) = extract_text g1 +:+ " " +:+ extract_text g2.
Proof.
  intros Hg1 Hg2. induction g1 as [|r g1 IH]; [done|].
  destruct g1 as [|r' g1].
  - simpl. by rewrite extract_text_cons.
  - change ((r :: r' :: g1) ++ g2) with (r :: ((r' :: g1) ++ g2)).
    rewrite extract_text_cons by done. rewrite IH by done.
    rewrite (extract_text_cons r (r' :: g1)) by done.
    by rewrite !str_app_assoc.
Qed.

(** X15. Texts compose by concatenation: when posts are appended to the
    table, the text of an author who has posts in both parts is the old
    text, one space, and the text of the appended posts; the text of an
    author without appended posts does not change. *)
Theorem author_text_append (data more : list PostRecord) (a : string) :
  a ∈ col_author data →
  (a ∈ col_author more →
   fill_text_dict (groupby_author (data ++ more)) ∅ !! a
   = Some (text_of_author data a +:+ " " +:+ text_of_author more a))
  ∧ (a ∉ col_author more →
     fill_text_dict (groupby_author (data ++ more)) ∅ !! a
     = fill_text_dict (groupby_author data) ∅ !! a).
Proof.
  intros Ha.
  assert (a ∈ col_author (data ++ more)) as Ha'.
  { unfold col_author. rewrite map_app. apply elem_of_app. by left. }
  rewrite !text_dict_lookup, !decide_True by done.
  unfold text_of_author. rewrite get_group_app. split.
  - intros Hm. f_equal. apply extract_text_app; by rewrite get_group_nil;
      intros H; apply H.
  - intros Hm. apply get_group_nil in Hm. by rewrite Hm, app_nil_r.
Qed.

Lemma author_text_append_demo :
  fill_text_dict
    (groupby_author (demo_posts ++ [mkPost "a2" "sub2" None])) ∅ !! "a2"
  = Some "yo nan".
Proof.
  apply (proj1 (author_text_append demo_posts [mkPost "a2" "sub2" None] "a2"
                  ltac:(vm_compute; set_solver))).
  vm_compute. set_solver.
Defined.

Lemma membership_row_app (data more : list PostRecord) (a : string)
  (j : nat) :
  membership_row data a !! j = Some 1%Z →
  membership_row (data ++ more) a !! j = Some 1%Z.
Proof.
  rewrite !membership_row_indicator. unfold indicator_row.
  rewrite !lookup_map. rewrite col_subreddit_app.
  unfold unique at 2. rewrite unique_from_app. fold (unique (col_subreddit data)).
  intros Hj.
  destruct (unique (col_subreddit data) !! j) as [c|] eqn:Hc; [|done].
  rewrite (lookup_app_l_Some _ _ _ c) by done. simpl in *.
  destruct (decide (c ∈ col_subreddit (get_group data a))) as [Hin|]; [|done].
  rewrite decide_True; [done|].
  rewrite get_group_app, col_subreddit_app. apply elem_of_app. by left.
Qed.

(** X16. Appending posts never clears a membership: a 1 in the vector of an
    author stays a 1, at the same position, in the vector computed from the
    longer table with its own index. *)
Theorem membership_append_monotone (data more : list PostRecord)
  (a : string) (j : nat) (v : list Z) :
  extract_subreddits (get_group data a) (create_subreddit_idx data) = Ok [v] →
  v !! j = Some 1%Z →
  ∃ v', extract_subreddits (get_group (data ++ more) a)
          (create_subreddit_idx (data ++ more)) = Ok [v']
        ∧ v' !! j = Some 1%Z.
Proof.
  intros Hrun Hj.
  destruct (membership_block_Ok data a) as (Hrun' & Hblock & _).
  rewrite Hrun', Hblock in Hrun. injection Hrun as <-.
  destruct (membership_block_Ok (data ++ more) a) as (Hrun2 & Hblock2 & _).
  exists (membership_row (data ++ more) a).
  split; [by rewrite Hrun2, Hblock2|]. by apply membership_row_app.
Qed.

Lemma membership_append_monotone_demo :
  ∃ v', extract_subreddits
          (get_group (demo_posts ++ [mkPost "a2" "sub3" None]) "a2")
          (create_subreddit_idx (demo_posts ++ [mkPost "a2" "sub3" None]))
        = Ok [v']
        ∧ v' !! 0 = Some 1%Z.
Proof.
  apply (membership_append_monotone demo_posts [mkPost "a2" "sub3" None]
           "a2" 0 [1; 0]%Z).
  - vm_compute. reflexivity.
  - reflexivity.
Defined.
